(** * libcst/nodes/_internal.py: code generation state and traversal helpers

    A shallow embedding of [libcst.nodes._internal]: the cursor arithmetic of
    [CodegenState], its indent stack, the two position-recording strategies,
    and the four [visit_*] helpers a node uses to descend into its children.

    Conventions.
    - A Python [str] is a list of code points ([pystr]); [len] is [length].
    - Python [int] is [Z].
    - A Python exception is a value of type [exn]; a call that may raise
      returns an [exc].
    - [node._metadata] is a dictionary owned by the node instance; all of them
      together form one store keyed by (node identity, provider). *)

From Stdlib Require Import ZArith NArith String Ascii List Lia Bool.
From stdpp Require Import base option list gmap.
Import ListNotations.

Local Open Scope Z_scope.

(** ** Python strings *)

Module PyStr.

Definition pychar := N.
Abbreviation pystr := (list N).

Definition CR : pychar := 13%N.
Definition LF : pychar := 10%N.

(** A string literal of the source, as code points. *)
Definition lit (s : string) : pystr := map N_of_ascii (list_ascii_of_string s).

(** [len(value)] as a Python integer. *)
Definition len {A} (l : list A) : Z := Z.of_nat (length l).

(** ["".join(parts)] *)
Definition join (parts : list pystr) : pystr := concat parts.

Definition is_newline_char (c : pychar) : bool := (c =? CR)%N || (c =? LF)%N.

(** [needle in haystack] for strings. *)
Fixpoint starts_with (needle hay : pystr) : bool :=
  match needle, hay with
  | [], _ => true
  | _ :: _, [] => false
  | a :: needle', b :: hay' => (a =? b)%N && starts_with needle' hay'
  end.

Fixpoint contains (needle hay : pystr) : bool :=
  starts_with needle hay ||
  match hay with
  | [] => false
  | _ :: hay' => contains needle hay'
  end.

End PyStr.
Import PyStr.

(** ** The fragment of [re] used by [NEWLINE_RE] *)

Module Re.

Inductive regex :=
| Chr (c : pychar)
| Cat (a b : regex)
| Alt (a b : regex)
| Opt (a : regex).

(** Backtracking match of [r] at the start of [s]; [k] receives the text left
    after the match.  Alternatives are tried left to right and [?] is greedy,
    as in Python. *)
Fixpoint re_match (r : regex) (s : pystr) (k : pystr -> option pystr)
  : option pystr :=
  match r with
  | Chr c =>
      match s with
      | x :: s' => if (x =? c)%N then k s' else None
      | [] => None
      end
  | Cat a b => re_match a s (fun s' => re_match b s' k)
  | Alt a b =>
      match re_match a s k with
      | Some rest => Some rest
      | None => re_match b s k
      end
  | Opt a =>
      match re_match a s k with
      | Some rest => Some rest
      | None => k s
      end
  end.

(** [Pattern.split]: scan left to right; a non-empty match closes the
    current segment and scanning resumes after it, otherwise the character
    joins the segment.  (None of the patterns here matches the empty
    string.)  [fuel] bounds the number of scan steps. *)
Fixpoint split_from (fuel : nat) (r : regex) (s seg : pystr) : list pystr :=
  match fuel with
  | O => [seg ++ s]
  | S fuel' =>
      match s with
      | [] => [seg]
      | c :: s' =>
          match re_match r s Some with
          | Some rest =>
              if (length rest <? length s)%nat
              then seg :: split_from fuel' r rest []
              else split_from fuel' r s' (seg ++ [c])
          | None => split_from fuel' r s' (seg ++ [c])
          end
      end
  end.

Definition split (r : regex) (s : pystr) : list pystr :=
  split_from (S (length s)) r s [].

End Re.
Import Re.

(** [NEWLINE_RE = re.compile(r"\r\n?|\n")] *)
Definition NEWLINE_RE : regex :=
  Alt (Cat (Chr CR) (Opt (Chr LF))) (Chr LF).

(** ** Positions *)

Record CodePosition := mkCodePosition { pos_line : Z; pos_column : Z }.

Record CodeRange := mkCodeRange { start : CodePosition; end_ : CodePosition }.

(** [CodeRange.create] *)
Definition CodeRange_create (s e : Z * Z) : CodeRange :=
  mkCodeRange (mkCodePosition (fst s) (snd s)) (mkCodePosition (fst e) (snd e)).

(** Lexicographic order on (line, column). *)
Definition pos_le (p q : CodePosition) : Prop :=
  pos_line p < pos_line q \/
  (pos_line p = pos_line q /\ pos_column p <= pos_column q).

Definition pos_leb (p q : CodePosition) : bool :=
  (pos_line p <? pos_line q) ||
  ((pos_line p =? pos_line q) && (pos_column p <=? pos_column q)).

(** ** Exceptions *)

Inductive exn :=
| TypeError (msg : pystr)
| IndexError (msg : pystr).

Inductive exc (A : Type) :=
| Ok (a : A)
| Raise (e : exn).
Arguments Ok {A} a.
Arguments Raise {A} e.

(** ** CodegenState *)

Inductive Provider := BasicPositionProvider | SyntacticPositionProvider.

(** The dynamic class of a state object: it selects which
    [record_syntactic_position] runs. *)
Inductive StateClass := CodegenStateCls | SyntacticCodegenStateCls.

Record CodegenState := mkCodegenState {
  cls : StateClass;
  default_indent : pystr;
  default_newline : pystr;
  provider : Provider;
  indent_tokens : list pystr;
  tokens : list pystr;
  line : Z;
  column : Z
}.

Definition set_indent_tokens (l : list pystr) (st : CodegenState) :=
  mkCodegenState (cls st) (default_indent st) (default_newline st)
    (provider st) l (tokens st) (line st) (column st).

Definition set_tokens (l : list pystr) (st : CodegenState) :=
  mkCodegenState (cls st) (default_indent st) (default_newline st)
    (provider st) (indent_tokens st) l (line st) (column st).

Definition set_cursor (ln col : Z) (st : CodegenState) :=
  mkCodegenState (cls st) (default_indent st) (default_newline st)
    (provider st) (indent_tokens st) (tokens st) ln col.

(** [CodegenState(default_indent, default_newline)] with [__post_init__]. *)
Definition new_CodegenState (indent newline : pystr) : CodegenState :=
  mkCodegenState CodegenStateCls indent newline BasicPositionProvider
    [] [] 1 0.

(** [SyntacticCodegenState(default_indent, default_newline)]. *)
Definition new_SyntacticCodegenState (indent newline : pystr) : CodegenState :=
  mkCodegenState SyntacticCodegenStateCls indent newline
    SyntacticPositionProvider [] [] 1 0.

Definition cursor (st : CodegenState) : CodePosition :=
  mkCodePosition (line st) (column st).

Definition increase_indent (value : pystr) (st : CodegenState) : CodegenState :=
  set_indent_tokens (indent_tokens st ++ [value]) st.

(** [list.pop()] raises [IndexError] on an empty list. *)
Definition decrease_indent (st : CodegenState) : exc unit * CodegenState :=
  match indent_tokens st with
  | [] => (Raise (IndexError (lit "pop from empty list")), st)
  | _ :: _ => (Ok tt, set_indent_tokens (removelast (indent_tokens st)) st)
  end.

Definition _update_position (value : pystr) (st : CodegenState) : CodegenState :=
  let segments := Re.split NEWLINE_RE value in
  if (length segments =? 1)%nat
  then set_cursor (line st) (column st + len value) st
  else set_cursor (line st + (len segments - 1))
                  (len (List.last segments [])) st.

Definition add_indent_tokens (st : CodegenState) : CodegenState :=
  let st1 := set_tokens (tokens st ++ indent_tokens st) st in
  fold_left (fun s token => _update_position token s) (indent_tokens st) st1.

Definition add_token (value : pystr) (st : CodegenState) : CodegenState :=
  _update_position value (set_tokens (tokens st ++ [value]) st).

(** ** Newlines, as the documentation words them

    ["\r\n"], ["\r"] and ["\n"] each count as one newline; the column after a
    token with a newline is the length of the text after the last one. *)

Fixpoint newline_count (s : pystr) : nat :=
  match s with
  | [] => O
  | c :: s' =>
      if (c =? CR)%N then
        match s' with
        | d :: s'' => if (d =? LF)%N then S (newline_count s'')
                      else S (newline_count s')
        | [] => 1%nat
        end
      else if (c =? LF)%N then S (newline_count s')
      else newline_count s'
  end.

Definition has_newline (s : pystr) : bool := existsb is_newline_char s.

Fixpoint after_last_newline (s : pystr) : pystr :=
  match s with
  | [] => []
  | c :: s' =>
      if has_newline s' then after_last_newline s'
      else if is_newline_char c then s' else c :: s'
  end.

(** ** Node metadata

    [node._metadata[provider]] for every node instance, as one store. *)

Abbreviation Metadata := (gmap (nat * Provider) CodeRange).

(** A node instance: its identity (which keys its [_metadata]) and
    [type(node).__name__]. *)
Record CSTNode := mkCSTNode { node_id : nat; type_name : pystr }.

Global Instance Provider_eq_dec : EqDecision Provider.
Proof. solve_decision. Defined.

Global Instance Provider_countable : Countable Provider.
Proof.
  refine (inj_countable'
            (fun p => match p with
                      | BasicPositionProvider => false
                      | SyntacticPositionProvider => true
                      end)
            (fun b => if b then SyntacticPositionProvider
                      else BasicPositionProvider) _).
  intros []; reflexivity.
Defined.

(** The key of [node._metadata[provider]]. *)
Definition meta_key (node : CSTNode) (p : Provider) : nat * Provider :=
  (node_id node, p).

Definition record_position (node : CSTNode) (position : CodeRange)
    (st : CodegenState) (md : Metadata) : Metadata :=
  match md !! meta_key node (provider st) with
  | None => <[meta_key node (provider st) := position]> md
  | Some _ => md
  end.

(** A block of code run against the state and the nodes' metadata: how it
    ended, and what it left behind. *)
Definition Codegen : Type :=
  CodegenState -> Metadata -> exc unit * CodegenState * Metadata.

(** [CodegenState.record_syntactic_position]: the [with] body runs, nothing
    else happens. *)
Definition CodegenState_record_syntactic_position
    (node : CSTNode) (body : Codegen) : Codegen :=
  fun st md => body st md.

(** [SyntacticCodegenState.record_syntactic_position]: the [finally] clause
    runs whether the [with] body returned or raised, and the body's outcome
    is then passed on. *)
Definition SyntacticCodegenState_record_syntactic_position
    (node : CSTNode) (body : Codegen) : Codegen :=
  fun st md =>
    let start_ := mkCodePosition (line st) (column st) in
    let '(r, st', md') := body st md in
    let end' := mkCodePosition (line st') (column st') in
    (r, st', <[meta_key node (provider st') := mkCodeRange start_ end']> md').

(** [state.record_syntactic_position(node)], dispatched on the class of
    [state]. *)
Definition record_syntactic_position (node : CSTNode) (body : Codegen)
  : Codegen :=
  fun st md =>
    match cls st with
    | CodegenStateCls => CodegenState_record_syntactic_position node body st md
    | SyntacticCodegenStateCls =>
        SyntacticCodegenState_record_syntactic_position node body st md
    end.

(** ** Scripts of state calls

    What a node's [_codegen] does to the state it is given: a sequence of
    calls of the state's methods, with [record_syntactic_position] wrapped
    around a nested sequence. *)

Inductive script :=
| Skip
| Seq (a b : script)
| AddToken (value : pystr)
| AddIndentTokens
| IncreaseIndent (value : pystr)
| DecreaseIndent
| RecordSyntactic (node : CSTNode) (body : script).

Fixpoint run (s : script) : Codegen :=
  match s with
  | Skip => fun st md => (Ok tt, st, md)
  | Seq a b =>
      fun st md =>
        match run a st md with
        | (Ok _, st', md') => run b st' md'
        | (Raise e, st', md') => (Raise e, st', md')
        end
  | AddToken value => fun st md => (Ok tt, add_token value st, md)
  | AddIndentTokens => fun st md => (Ok tt, add_indent_tokens st, md)
  | IncreaseIndent value => fun st md => (Ok tt, increase_indent value st, md)
  | DecreaseIndent =>
      fun st md => let '(r, st') := decrease_indent st in (r, st', md)
  | RecordSyntactic node body => record_syntactic_position node (run body)
  end.

(** Whether the script wraps [record_syntactic_position] around the node
    with identity [k], at any depth. *)
Fixpoint records (s : script) (k : nat) : bool :=
  match s with
  | Seq a b => records a k || records b k
  | RecordSyntactic node body => (node_id node =? k)%nat || records body k
  | _ => false
  end.

(** The range a state's provider has on record for a node. *)
Definition range_of (md : Metadata) (node : CSTNode) (p : Provider)
  : option CodeRange :=
  md !! meta_key node p.

(** [inner] lies within [outer]. *)
Definition range_within (inner outer : CodeRange) : Prop :=
  pos_le (start outer) (start inner) /\ pos_le (end_ inner) (end_ outer).

(** ** Traversal helpers *)

(** What [node.visit(visitor)] returns: a node, or [RemovalSentinel]. *)
Inductive visit_result :=
| Node (n : CSTNode)
| REMOVE.

(** Modelled from the spec: [libcst._maybe_sentinel.MaybeSentinel] is not
    part of this file; it is the enumeration of the one "use the default"
    placeholder. *)
Inductive MaybeSentinel := DEFAULT.

(** A slot that holds a node or the placeholder. *)
Inductive sentinel_slot :=
| Real (n : CSTNode)
| Sentinel (m : MaybeSentinel).

Section Traversal.

(** The visitor object's own state, and [node.visit(visitor)]. *)
Context {V : Type}.
Variable visit : CSTNode -> V -> visit_result * V.

(** A call that may raise and may change the visitor. *)
Definition Trav (A : Type) : Type := V -> exc A * V.

Definition removal_message (node : CSTNode) : pystr :=
  (lit "We got a RemovalSentinel while visiting a " ++ type_name node
     ++ lit ". This ")
    ++ lit "node's parent does not allow it to be removed.".

Definition visit_required (fieldname : pystr) (node : CSTNode)
  : Trav CSTNode :=
  fun v =>
    let '(result, v') := visit node v in
    match result with
    | REMOVE => (Raise (TypeError (removal_message node)), v')
    | Node n => (Ok n, v')
    end.

Definition visit_optional (fieldname : pystr) (node : option CSTNode)
  : Trav (option CSTNode) :=
  fun v =>
    match node with
    | None => (Ok None, v)
    | Some node =>
        let '(result, v') := visit node v in
        match result with
        | REMOVE => (Ok None, v')
        | Node n => (Ok (Some n), v')
        end
    end.

Definition visit_sentinel (fieldname : pystr) (node : sentinel_slot)
  : Trav sentinel_slot :=
  fun v =>
    match node with
    | Sentinel _ => (Ok (Sentinel DEFAULT), v)
    | Real node =>
        let '(result, v') := visit node v in
        match result with
        | REMOVE => (Ok (Sentinel DEFAULT), v')
        | Node n => (Ok (Real n), v')
        end
    end.

(** The generator [visit_iterable(fieldname, children, visitor)], held as
    the children it has not reached yet.  [visit_iterable_next] resumes it:
    it runs to the next [yield] and gives the yielded node with the
    suspended generator, or finishes with [None]. *)
Definition visit_iterable (fieldname : pystr) (children : list CSTNode)
  : list CSTNode := children.

Fixpoint visit_iterable_next (gen : list CSTNode)
  : Trav (option (CSTNode * list CSTNode)) :=
  fun v =>
    match gen with
    | [] => (Ok None, v)
    | child :: rest =>
        let '(new_child, v') := visit child v in
        match new_child with
        | REMOVE => visit_iterable_next rest v'
        | Node n => (Ok (Some (n, rest)), v')
        end
    end.

(** [tuple(gen)]: resume the generator until it finishes.  [fuel] bounds
    the number of resumptions. *)
Fixpoint tuple_of (fuel : nat) (gen : list CSTNode) (acc : list CSTNode)
  : Trav (list CSTNode) :=
  fun v =>
    match fuel with
    | O => (Ok acc, v)
    | S fuel' =>
        match visit_iterable_next gen v with
        | (Ok (Some (n, gen')), v') => tuple_of fuel' gen' (acc ++ [n]) v'
        | (Ok None, v') => (Ok acc, v')
        | (Raise e, v') => (Raise e, v')
        end
    end.

Definition visit_sequence (fieldname : pystr) (children : list CSTNode)
  : Trav (list CSTNode) :=
  tuple_of (S (length children)) (visit_iterable fieldname children) [].

(** ** The traversal of a collection, as the documentation words it *)

(** Visit every child in order, keeping each outcome. *)
Fixpoint visit_all (children : list CSTNode) (v : V)
  : list visit_result * V :=
  match children with
  | [] => ([], v)
  | child :: rest =>
      let '(r, v') := visit child v in
      let '(rs, v'') := visit_all rest v' in
      (r :: rs, v'')
  end.

(** Drop the removal requests, keep the produced nodes in order. *)
Fixpoint kept (rs : list visit_result) : list CSTNode :=
  match rs with
  | [] => []
  | Node n :: rs' => n :: kept rs'
  | REMOVE :: rs' => kept rs'
  end.

End Traversal.

(** ** Sequences of calls *)

(** [add_token] for each value in turn. *)
Definition emit_all (values : list pystr) (st : CodegenState) : CodegenState :=
  fold_left (fun s value => add_token value s) values st.

(** [increase_indent] for each value in turn. *)
Definition increase_indent_all (values : list pystr) (st : CodegenState)
  : CodegenState :=
  fold_left (fun s value => increase_indent value s) values st.

(** [decrease_indent] called [n] times, up to the first call that raises. *)
Fixpoint decrease_indent_n (n : nat) (st : CodegenState)
  : exc unit * CodegenState :=
  match n with
  | O => (Ok tt, st)
  | S n' =>
      match decrease_indent st with
      | (Ok _, st') => decrease_indent_n n' st'
      | (Raise e, st') => (Raise e, st')
      end
  end.

(** [record_position] for each (node, range) in turn. *)
Definition record_all (l : list (CSTNode * CodeRange)) (st : CodegenState)
    (md : Metadata) : Metadata :=
  fold_left (fun m nr => record_position (fst nr) (snd nr) st m) l md.

(** The first range listed for the node with identity [k]. *)
Fixpoint first_range_for (k : nat) (l : list (CSTNode * CodeRange))
  : option CodeRange :=
  match l with
  | [] => None
  | (n, p) :: l' =>
      if (node_id n =? k)%nat then Some p else first_range_for k l'
  end.

(** ** Text and positions *)

(** [a] ends with a carriage return and [b] starts with a line feed. *)
Definition crlf_split (a b : pystr) : bool :=
  (List.last a 0%N =? CR)%N &&
  match b with
  | c :: _ => (c =? LF)%N
  | [] => false
  end.

(** No value starts with a line feed right after text that ends with a
    carriage return; [acc] is the text before the first value. *)
Fixpoint crlf_safe (acc : pystr) (values : list pystr) : bool :=
  match values with
  | [] => true
  | value :: rest =>
      negb (crlf_split acc value) && crlf_safe (acc ++ value) rest
  end.

(** The position right after [text] in a file that holds just [text]. *)
Definition text_position (text : pystr) : CodePosition :=
  mkCodePosition (1 + Z.of_nat (newline_count text))
                 (len (after_last_newline text)).

(** What a state has emitted and where it stands, without the class and
    the provider. *)
Definition output_of (st : CodegenState)
  : pystr * pystr * list pystr * list pystr * Z * Z :=
  (default_indent st, default_newline st, indent_tokens st, tokens st,
   line st, column st).

(** Every range on record starts no later than it ends. *)
Definition md_well_ordered (md : Metadata) : Prop :=
  forall k rg, md !! k = Some rg -> pos_le (start rg) (end_ rg).

(** * Properties *)

(** ** [NEWLINE_RE.split] *)

Lemma NEWLINE_RE_match_cons (c : pychar) (s : pystr) :
  re_match NEWLINE_RE (c :: s) Some =
    if (c =? CR)%N then
      match s with
      | d :: s' => if (d =? LF)%N then Some s' else Some s
      | [] => Some s
      end
    else if (c =? LF)%N then Some s else None.
Proof.
  unfold NEWLINE_RE; simpl.
  destruct (c =? CR)%N; [|reflexivity].
  destruct s as [|d s']; [reflexivity|].
  destruct (d =? LF)%N; reflexivity.
Qed.

Lemma split_from_nonempty fuel r s seg : split_from fuel r s seg <> [].
Proof.
  revert s seg; induction fuel as [|fuel IH]; intros s seg; simpl; [discriminate|].
  destruct s as [|c s']; [discriminate|].
  destruct (re_match r (c :: s') Some) as [rest|]; [|apply IH].
  destruct (length rest <? length (c :: s'))%nat; [discriminate|apply IH].
Qed.

Lemma last_cons_nonempty {A} (a : A) (l : list A) d :
  l <> [] -> List.last (a :: l) d = List.last l d.
Proof. destruct l; [congruence|reflexivity]. Qed.

Lemma has_newline_cons c s :
  has_newline (c :: s) = is_newline_char c || has_newline s.
Proof. reflexivity. Qed.

Lemma split_from_NEWLINE_RE fuel : forall s seg,
  (length s < fuel)%nat ->
  length (split_from fuel NEWLINE_RE s seg) = S (newline_count s) /\
  List.last (split_from fuel NEWLINE_RE s seg) [] =
    if has_newline s then after_last_newline s else seg ++ s.
Proof.
  induction fuel as [|fuel IH]; intros s seg Hlen; [lia|].
  destruct s as [|c s'].
  { simpl. rewrite app_nil_r. auto. }
  cbn [split_from]. rewrite NEWLINE_RE_match_cons.
  cbn [newline_count after_last_newline]. rewrite has_newline_cons.
  unfold is_newline_char. simpl in Hlen.
  destruct (c =? CR)%N eqn:Hcr.
  - destruct s' as [|d s''].
    + destruct fuel; [lia|]. simpl. auto.
    + destruct (d =? LF)%N eqn:Hlf.
      * assert (Hlt : (length s'' <? length (c :: d :: s''))%nat = true)
          by (apply Nat.ltb_lt; simpl; lia).
        rewrite Hlt.
        destruct (IH s'' [] ltac:(simpl in Hlen; lia)) as [IHl IHlast].
        split; [simpl; rewrite IHl; reflexivity|].
        rewrite last_cons_nonempty by apply split_from_nonempty.
        rewrite IHlast. rewrite has_newline_cons. unfold is_newline_char.
        rewrite Hlf, orb_true_r. simpl.
        unfold is_newline_char. rewrite Hlf, orb_true_r. reflexivity.
      * assert (Hlt : (length (d :: s'') <? length (c :: d :: s''))%nat = true)
          by (apply Nat.ltb_lt; simpl; lia).
        rewrite Hlt.
        destruct (IH (d :: s'') [] ltac:(lia)) as [IHl IHlast].
        split; [simpl length; rewrite IHl; reflexivity|].
        rewrite last_cons_nonempty by apply split_from_nonempty.
        rewrite IHlast. simpl. reflexivity.
  - destruct (c =? LF)%N eqn:Hlf.
    + assert (Hlt : (length s' <? length (c :: s'))%nat = true)
        by (apply Nat.ltb_lt; simpl; lia).
      rewrite Hlt.
      destruct (IH s' [] ltac:(lia)) as [IHl IHlast].
      split; [simpl length; rewrite IHl; reflexivity|].
      rewrite last_cons_nonempty by apply split_from_nonempty.
      rewrite IHlast. simpl. reflexivity.
    + destruct (IH s' (seg ++ [c]) ltac:(lia)) as [IHl IHlast].
      split; [exact IHl|].
      rewrite IHlast. simpl. rewrite <- app_assoc.
      destruct (has_newline s'); reflexivity.
Qed.

Lemma split_NEWLINE_RE_length (s : pystr) :
  length (Re.split NEWLINE_RE s) = S (newline_count s).
Proof. apply split_from_NEWLINE_RE. lia. Qed.

Lemma split_NEWLINE_RE_last (s : pystr) :
  List.last (Re.split NEWLINE_RE s) [] =
    if has_newline s then after_last_newline s else s.
Proof.
  unfold Re.split.
  destruct (split_from_NEWLINE_RE (S (length s)) s [] ltac:(lia)) as [_ H].
  exact H.
Qed.

Lemma newline_count_has_newline (s : pystr) :
  has_newline s = negb (newline_count s =? 0)%nat.
Proof.
  assert (H : forall n (s : pystr), (length s <= n)%nat ->
            has_newline s = negb (newline_count s =? 0)%nat).
  { clear s. induction n as [|n IH]; intros s Hlen.
    - destruct s; [reflexivity|simpl in Hlen; lia].
    - destruct s as [|c s']; [reflexivity|].
      simpl in Hlen. rewrite has_newline_cons. cbn [newline_count].
      unfold is_newline_char.
      destruct (c =? CR)%N; [destruct s' as [|d s'']; [reflexivity|];
                             destruct (d =? LF)%N; reflexivity|].
      destruct (c =? LF)%N; [reflexivity|].
      simpl. apply IH. lia. }
  apply (H (length s)). lia.
Qed.

Lemma after_last_newline_clean (s : pystr) :
  has_newline (after_last_newline s) = false.
Proof.
  induction s as [|c s' IH]; [reflexivity|].
  cbn [after_last_newline].
  destruct (has_newline s') eqn:Hs'; [exact IH|].
  destruct (is_newline_char c) eqn:Hc; [exact Hs'|].
  rewrite has_newline_cons, Hc, Hs'. reflexivity.
Qed.

Lemma after_last_newline_suffix (s : pystr) :
  has_newline s = true ->
  exists pre c,
    s = pre ++ c :: after_last_newline s /\ is_newline_char c = true.
Proof.
  induction s as [|c s' IH]; [discriminate|].
  rewrite has_newline_cons. cbn [after_last_newline]. intros H.
  destruct (has_newline s') eqn:Hs'.
  - destruct (IH eq_refl) as (pre & c0 & Heq & Hc0).
    exists (c :: pre), c0. split; [|exact Hc0].
    simpl. f_equal. exact Heq.
  - rewrite orb_false_r in H. rewrite H.
    exists [], c. split; [reflexivity|exact H].
Qed.

(** ** The cursor *)

Lemma update_position_cursor (value : pystr) (st : CodegenState) :
  _update_position value st =
    if has_newline value
    then set_cursor (line st + Z.of_nat (newline_count value))
                    (len (after_last_newline value)) st
    else set_cursor (line st) (column st + len value) st.
Proof.
  unfold _update_position.
  rewrite split_NEWLINE_RE_last. unfold len at 2.
  rewrite split_NEWLINE_RE_length.
  rewrite newline_count_has_newline.
  destruct (newline_count value) as [|n] eqn:Hn; simpl negb; cbv iota.
  - reflexivity.
  - replace (S (S n) =? 1)%nat with false by reflexivity.
    f_equal. lia.
Qed.

Lemma update_position_frame (value : pystr) (st : CodegenState) :
  cls (_update_position value st) = cls st /\
  provider (_update_position value st) = provider st /\
  indent_tokens (_update_position value st) = indent_tokens st /\
  tokens (_update_position value st) = tokens st.
Proof.
  rewrite update_position_cursor. destruct (has_newline value); auto.
Qed.

Lemma pos_le_refl p : pos_le p p.
Proof. unfold pos_le. lia. Qed.

Lemma pos_le_trans p q r : pos_le p q -> pos_le q r -> pos_le p r.
Proof. unfold pos_le. lia. Qed.

Lemma update_position_monotone (value : pystr) (st : CodegenState) :
  pos_le (cursor st) (cursor (_update_position value st)).
Proof.
  rewrite update_position_cursor.
  pose proof (newline_count_has_newline value) as Hn.
  destruct (has_newline value); unfold pos_le, cursor, len; simpl.
  - left. destruct (newline_count value); [discriminate|lia].
  - right. lia.
Qed.

Lemma add_token_monotone (value : pystr) (st : CodegenState) :
  pos_le (cursor st) (cursor (add_token value st)).
Proof. unfold add_token. apply (update_position_monotone value (set_tokens _ st)). Qed.

Lemma fold_update_position_monotone (l : list pystr) : forall st,
  pos_le (cursor st)
    (cursor (fold_left (fun s token => _update_position token s) l st)).
Proof.
  induction l as [|t l IH]; intros st; simpl; [apply pos_le_refl|].
  eapply pos_le_trans; [apply update_position_monotone|apply IH].
Qed.

Lemma fold_update_position_frame (l : list pystr) : forall st,
  let st' := fold_left (fun s token => _update_position token s) l st in
  cls st' = cls st /\ provider st' = provider st /\
  indent_tokens st' = indent_tokens st /\ tokens st' = tokens st.
Proof.
  induction l as [|t l IH]; intros st; simpl; [auto|].
  destruct (IH (_update_position t st)) as (H1 & H2 & H3 & H4).
  destruct (update_position_frame t st) as (G1 & G2 & G3 & G4).
  repeat split; congruence.
Qed.

Lemma add_indent_tokens_monotone (st : CodegenState) :
  pos_le (cursor st) (cursor (add_indent_tokens st)).
Proof.
  unfold add_indent_tokens.
  apply (fold_update_position_monotone (indent_tokens st) (set_tokens _ st)).
Qed.

(** C1. [add_token] appends the value to the output buffer and moves the
    cursor: with no newline in the value the column grows by its length and
    the line stays; otherwise the line grows by the number of newlines
    (["\r\n"], ["\r"], ["\n"] each one) and the column becomes the length of
    the text after the last newline.  From (1, 0), emitting ["abc"],
    ["de\nfgh"], ["\r\n"], ["x"] gives (1,3), (2,3), (3,0), (3,1). *)
Theorem add_token_cursor (st : CodegenState) (value : pystr) :
  tokens (add_token value st) = tokens st ++ [value] /\
  indent_tokens (add_token value st) = indent_tokens st /\
  cursor (add_token value st) =
    (if has_newline value
     then mkCodePosition (line st + Z.of_nat (newline_count value))
                         (len (after_last_newline value))
     else mkCodePosition (line st) (column st + len value)) /\
  (newline_count [LF] = 1%nat /\ newline_count [CR] = 1%nat /\
   newline_count [CR; LF] = 1%nat) /\
  let s0 := set_cursor 1 0 st in
  let s1 := add_token (lit "abc") s0 in
  let s2 := add_token (lit "de" ++ [LF] ++ lit "fgh") s1 in
  let s3 := add_token [CR; LF] s2 in
  let s4 := add_token (lit "x") s3 in
  cursor s1 = mkCodePosition 1 3 /\ cursor s2 = mkCodePosition 2 3 /\
  cursor s3 = mkCodePosition 3 0 /\ cursor s4 = mkCodePosition 3 1.
Proof.
  unfold add_token.
  split; [|split; [|split; [|split]]].
  - destruct (update_position_frame value (set_tokens (tokens st ++ [value]) st))
      as (_ & _ & _ & H). rewrite H. reflexivity.
  - destruct (update_position_frame value (set_tokens (tokens st ++ [value]) st))
      as (_ & _ & H & _). rewrite H. reflexivity.
  - rewrite update_position_cursor.
    destruct (has_newline value); reflexivity.
  - repeat split; reflexivity.
  - cbv zeta. rewrite !update_position_cursor.
    repeat split; reflexivity.
Qed.

(** C10. A carriage return and a line feed emitted as two tokens move the
    cursor down two lines, emitted as one token they move it down one; the
    output text is the same and the cursors differ. *)
Theorem add_token_crlf_not_compositional (st : CodegenState) :
  let two := add_token [LF] (add_token [CR] st) in
  let one := add_token [CR; LF] st in
  cursor two = mkCodePosition (line st + 2) 0 /\
  cursor one = mkCodePosition (line st + 1) 0 /\
  join (tokens two) = join (tokens one) /\
  cursor two <> cursor one.
Proof.
  cbv zeta. unfold add_token. rewrite !update_position_cursor.
  cbn [has_newline existsb is_newline_char newline_count after_last_newline
       N.eqb CR LF Pos.eqb orb].
  unfold cursor; cbn -[Z.add].
  repeat split.
  - f_equal. lia.
  - unfold join. rewrite !concat_app. cbn. rewrite <- app_assoc. reflexivity.
  - intros H. injection H. lia.
Qed.

(** ** The indent stack *)

Lemma decrease_indent_frame (st : CodegenState) :
  tokens (snd (decrease_indent st)) = tokens st /\
  cursor (snd (decrease_indent st)) = cursor st /\
  cls (snd (decrease_indent st)) = cls st /\
  provider (snd (decrease_indent st)) = provider st.
Proof.
  unfold decrease_indent. destruct (indent_tokens st); simpl; auto.
Qed.

Lemma decrease_indent_snoc (st : CodegenState) stack token :
  indent_tokens st = stack ++ [token] ->
  decrease_indent st = (Ok tt, set_indent_tokens stack st).
Proof.
  intros H. unfold decrease_indent. rewrite H.
  destruct (stack ++ [token]) eqn:E.
  - destruct stack; discriminate.
  - rewrite <- E, removelast_last. reflexivity.
Qed.

(** C8. From an empty indent stack, pushing ["  "], emitting the indentation
    and popping leaves the stack empty again; the pop changes the stack only:
    the output buffer, with the indentation emitted before, and the cursor
    are as they were before the pop. *)
Theorem indent_balance (st : CodegenState) :
  indent_tokens st = [] ->
  let s1 := increase_indent (lit "  ") st in
  let s2 := add_indent_tokens s1 in
  let s3 := snd (decrease_indent s2) in
  fst (decrease_indent s2) = Ok tt /\
  indent_tokens s3 = indent_tokens st /\
  tokens s2 = tokens st ++ [lit "  "] /\
  tokens s3 = tokens s2 /\
  cursor s3 = cursor s2 /\
  cursor s2 = mkCodePosition (line st) (column st + 2).
Proof.
  intros Hempty. cbv zeta.
  assert (Hs2 : add_indent_tokens (increase_indent (lit "  ") st) =
                set_cursor (line st) (column st + 2)
                  (set_tokens (tokens st ++ [lit "  "])
                     (set_indent_tokens [lit "  "] st))).
  { unfold add_indent_tokens, increase_indent. rewrite Hempty.
    cbn [indent_tokens set_indent_tokens app fold_left].
    rewrite update_position_cursor. reflexivity. }
  rewrite Hs2.
  rewrite (decrease_indent_snoc _ [] (lit "  ")) by reflexivity.
  rewrite Hempty. repeat split.
Qed.

Lemma indent_balance_witness :
  let st := new_CodegenState (lit "    ") [LF] in
  let s2 := add_indent_tokens (increase_indent (lit "  ") st) in
  let s3 := snd (decrease_indent s2) in
  fst (decrease_indent s2) = Ok tt /\
  indent_tokens s3 = [] /\
  tokens s3 = [lit "  "] /\
  cursor s3 = mkCodePosition 1 2.
Proof.
  cbv zeta.
  destruct (indent_balance (new_CodegenState (lit "    ") [LF]) eq_refl)
    as (Hok & Hstack & Hbuf & Hbuf' & Hcur & Hcur').
  cbv zeta in Hok, Hstack, Hbuf, Hbuf', Hcur, Hcur'.
  rewrite Hbuf in Hbuf'. rewrite Hcur' in Hcur.
  repeat split; assumption.
Defined.

(** C9. Popping an empty indent stack raises and changes nothing; popping a
    non-empty one succeeds and removes the token pushed last, so a pop undoes
    the push before it. *)
Theorem decrease_indent_pops_last (st : CodegenState) :
  (indent_tokens st = [] ->
   decrease_indent st = (Raise (IndexError (lit "pop from empty list")), st)) /\
  (indent_tokens st <> [] ->
   exists stack token,
     indent_tokens st = stack ++ [token] /\
     decrease_indent st = (Ok tt, set_indent_tokens stack st)) /\
  (forall token, decrease_indent (increase_indent token st) = (Ok tt, st)).
Proof.
  split; [|split].
  - intros H. unfold decrease_indent. rewrite H. reflexivity.
  - intros H.
    destruct (exists_last H) as (stack & token & E).
    exists stack, token. split; [exact E|].
    apply (decrease_indent_snoc st stack token). exact E.
  - intros token.
    rewrite (decrease_indent_snoc _ (indent_tokens st) token) by reflexivity.
    destruct st; reflexivity.
Qed.

Lemma decrease_indent_pops_last_witness :
  let empty := new_CodegenState (lit "    ") [LF] in
  let pushed := increase_indent (lit "  ") (increase_indent (lit "    ") empty) in
  decrease_indent empty =
    (Raise (IndexError (lit "pop from empty list")), empty) /\
  (exists stack token,
     indent_tokens pushed = stack ++ [token] /\
     decrease_indent pushed = (Ok tt, set_indent_tokens stack pushed)) /\
  decrease_indent pushed = (Ok tt, increase_indent (lit "    ") empty).
Proof.
  cbv zeta. split; [|split].
  - apply (proj1 (decrease_indent_pops_last
                    (new_CodegenState (lit "    ") [LF]))).
    reflexivity.
  - apply (proj1 (proj2 (decrease_indent_pops_last
                           (increase_indent (lit "  ")
                              (increase_indent (lit "    ")
                                 (new_CodegenState (lit "    ") [LF])))))).
    discriminate.
  - apply (proj2 (proj2 (decrease_indent_pops_last
                           (increase_indent (lit "    ")
                              (new_CodegenState (lit "    ") [LF]))))).
Defined.

(** ** Recorded positions *)

Lemma record_position_keeps (st : CodegenState) (node : CSTNode)
    (P0 P : CodeRange) (md : Metadata) :
  range_of md node (provider st) = Some P0 ->
  record_position node P st md = md.
Proof. unfold range_of, record_position. intros ->. reflexivity. Qed.

Lemma record_position_idempotent (st : CodegenState) (node : CSTNode)
    (P1 P2 : CodeRange) (md : Metadata) :
  record_position node P2 st (record_position node P1 st md) =
  record_position node P1 st md.
Proof.
  destruct (md !! meta_key node (provider st)) as [P0|] eqn:E.
  - rewrite (record_position_keeps st node P0 P1 md E).
    apply (record_position_keeps st node P0). exact E.
  - assert (H : record_position node P1 st md =
                <[meta_key node (provider st) := P1]> md)
      by (unfold record_position; rewrite E; reflexivity).
    rewrite H. apply (record_position_keeps st node P1).
    unfold range_of. apply lookup_insert_eq.
Qed.

(** C3. Two recordings of a node under the same provider, with different
    ranges: the second changes nothing; a node with no range on record
    before the first ends with the first range, and a node that had one
    keeps it.  Other entries are untouched. *)
Theorem record_position_first_write_wins
    (st : CodegenState) (node : CSTNode) (P1 P2 : CodeRange) (md : Metadata) :
  P2 <> P1 ->
  let md1 := record_position node P1 st md in
  let md2 := record_position node P2 st md1 in
  md2 = md1 /\
  (range_of md node (provider st) = None ->
   range_of md2 node (provider st) = Some P1) /\
  (forall P0, range_of md node (provider st) = Some P0 ->
              range_of md2 node (provider st) = Some P0) /\
  (forall k, k <> meta_key node (provider st) -> md2 !! k = md !! k).
Proof.
  intros _. cbv zeta. rewrite record_position_idempotent.
  split; [reflexivity|]. unfold range_of, record_position.
  split; [|split].
  - intros ->. apply lookup_insert_eq.
  - intros P0 H. rewrite H. exact H.
  - intros k Hk.
    destruct (md !! meta_key node (provider st)); [reflexivity|].
    apply lookup_insert_ne. congruence.
Qed.

Lemma record_position_first_write_wins_witness :
  let st := new_CodegenState (lit "    ") [LF] in
  let node := mkCSTNode 3 (lit "Name") in
  let P1 := CodeRange_create (1, 0) (1, 3) in
  let P2 := CodeRange_create (2, 0) (2, 5) in
  range_of (record_position node P2 st (record_position node P1 st ∅))
    node BasicPositionProvider = Some P1.
Proof.
  cbv zeta.
  assert (Hne : CodeRange_create (2, 0) (2, 5) <> CodeRange_create (1, 0) (1, 3))
    by (intros H; discriminate H).
  apply (proj1 (proj2 (record_position_first_write_wins
                         (new_CodegenState (lit "    ") [LF])
                         (mkCSTNode 3 (lit "Name"))
                         (CodeRange_create (1, 0) (1, 3))
                         (CodeRange_create (2, 0) (2, 5)) ∅ Hne))).
  reflexivity.
Defined.

(** ** Scoped recording *)

Lemma run_frame (s : script) : forall st md r st' md',
  run s st md = (r, st', md') ->
  cls st' = cls st /\ provider st' = provider st.
Proof.
  induction s as [|a IHa b IHb|value| |value| |node body IH];
    intros st md r st' md' Hrun; simpl in Hrun.
  - injection Hrun as <- <- <-. auto.
  - destruct (run a st md) as [[ra sta] mda] eqn:Ha.
    destruct (IHa _ _ _ _ _ Ha) as [Hc Hp].
    destruct ra as [[]|e].
    + destruct (IHb _ _ _ _ _ Hrun) as [Hc' Hp']. split; congruence.
    + injection Hrun as <- <- <-. auto.
  - injection Hrun as <- <- <-. unfold add_token.
    destruct (update_position_frame value (set_tokens (tokens st ++ [value]) st))
      as (H1 & H2 & _). auto.
  - injection Hrun as <- <- <-. unfold add_indent_tokens.
    destruct (fold_update_position_frame (indent_tokens st)
                (set_tokens (tokens st ++ indent_tokens st) st))
      as (H1 & H2 & _). auto.
  - injection Hrun as <- <- <-. auto.
  - destruct (decrease_indent st) as [r0 st0] eqn:Hd.
    injection Hrun as <- <- <-.
    destruct (decrease_indent_frame st) as (_ & _ & H1 & H2).
    rewrite Hd in H1, H2. auto.
  - unfold record_syntactic_position,
      CodegenState_record_syntactic_position,
      SyntacticCodegenState_record_syntactic_position in Hrun.
    destruct (cls st) eqn:Hcls.
    + rewrite <- Hcls. eapply IH; exact Hrun.
    + rewrite <- Hcls.
      destruct (run body st md) as [[r0 st0] md0] eqn:Hb.
      injection Hrun as <- <- <-. eapply IH; exact Hb.
Qed.

Lemma range_within_widen rg lo hi lo' hi' :
  range_within rg (mkCodeRange lo hi) ->
  pos_le lo' lo -> pos_le hi hi' ->
  range_within rg (mkCodeRange lo' hi').
Proof.
  unfold range_within; simpl. intros [H1 H2] Hlo Hhi.
  split; eapply pos_le_trans; eassumption.
Qed.

(** What a script run by a syntactic state leaves behind: the cursor has not
    moved back; every metadata entry is either the one from before or a
    range between the two cursors; and when the run returns, every node the
    script records has such a range. *)
Lemma run_syntactic_invariant (s : script) : forall st md r st' md',
  cls st = SyntacticCodegenStateCls ->
  provider st = SyntacticPositionProvider ->
  run s st md = (r, st', md') ->
  pos_le (cursor st) (cursor st') /\
  (forall k, md' !! k = md !! k \/
             exists rg, md' !! k = Some rg /\
                        range_within rg (mkCodeRange (cursor st) (cursor st'))) /\
  (r = Ok tt ->
   forall n, records s n = true ->
     exists rg, md' !! (n, SyntacticPositionProvider) = Some rg /\
                range_within rg (mkCodeRange (cursor st) (cursor st'))).
Proof.
  induction s as [|a IHa b IHb|value| |value| |node body IH];
    intros st md r st' md' Hcls Hprov Hrun; simpl in Hrun.
  - injection Hrun as <- <- <-.
    split; [apply pos_le_refl|]. split; [auto|]. intros _ n Hn. discriminate.
  - destruct (run a st md) as [[ra sta] mda] eqn:Ha.
    destruct (IHa _ _ _ _ _ Hcls Hprov Ha) as (Ma & Ba & Ca).
    destruct (run_frame _ _ _ _ _ _ Ha) as [Hc Hp].
    destruct ra as [[]|e].
    + rewrite <- Hc in Hcls. rewrite <- Hp in Hprov.
      destruct (IHb _ _ _ _ _ Hcls Hprov Hrun) as (Mb & Bb & Cb).
      assert (Hfrom_b : forall k rg,
                md' !! k = Some rg ->
                range_within rg (mkCodeRange (cursor sta) (cursor st')) ->
                exists rg', md' !! k = Some rg' /\
                  range_within rg' (mkCodeRange (cursor st) (cursor st'))).
      { intros k rg Hk Hw. exists rg. split; [exact Hk|].
        eapply range_within_widen; [exact Hw|exact Ma|apply pos_le_refl]. }
      assert (Hfrom_a : forall k rg,
                md' !! k = mda !! k -> mda !! k = Some rg ->
                range_within rg (mkCodeRange (cursor st) (cursor sta)) ->
                exists rg', md' !! k = Some rg' /\
                  range_within rg' (mkCodeRange (cursor st) (cursor st'))).
      { intros k rg Hk Hk' Hw. exists rg. split; [congruence|].
        eapply range_within_widen; [exact Hw|apply pos_le_refl|exact Mb]. }
      split; [eapply pos_le_trans; eassumption|]. split.
      * intros k.
        destruct (Bb k) as [Hk|(rg & Hk & Hw)]; [|right; eauto].
        destruct (Ba k) as [Hk'|(rg & Hk' & Hw)]; [left; congruence|].
        right; eauto.
      * intros Hr n Hn. cbn [records] in Hn.
        destruct (records b n) eqn:Hbn.
        { destruct (Cb Hr n Hbn) as (rg & Hk & Hw). eauto. }
        rewrite orb_false_r in Hn. rename Hn into Han.
        destruct (Ca eq_refl n Han) as (rg & Hk' & Hw).
        destruct (Bb (n, SyntacticPositionProvider))
          as [Hk|(rg' & Hk & Hw')]; eauto.
    + injection Hrun as <- <- <-.
      split; [exact Ma|]. split; [exact Ba|]. discriminate.
  - injection Hrun as <- <- <-.
    split; [apply add_token_monotone|]. split; [auto|]. discriminate.
  - injection Hrun as <- <- <-.
    split; [apply add_indent_tokens_monotone|]. split; [auto|]. discriminate.
  - injection Hrun as <- <- <-.
    split; [apply pos_le_refl|]. split; [auto|]. discriminate.
  - destruct (decrease_indent st) as [r0 st0] eqn:Hd.
    injection Hrun as <- <- <-.
    destruct (decrease_indent_frame st) as (_ & Hcur & _).
    rewrite Hd in Hcur. simpl in Hcur. rewrite Hcur.
    split; [apply pos_le_refl|]. split; [auto|]. discriminate.
  - unfold record_syntactic_position,
      SyntacticCodegenState_record_syntactic_position in Hrun.
    rewrite Hcls in Hrun.
    destruct (run body st md) as [[r0 st0] md0] eqn:Hb.
    injection Hrun as <- <- <-.
    destruct (IH _ _ _ _ _ Hcls Hprov Hb) as (M & B & C).
    destruct (run_frame _ _ _ _ _ _ Hb) as [_ Hp]. rewrite Hp, Hprov.
    fold (cursor st) (cursor st0).
    assert (Hself : range_within (mkCodeRange (cursor st) (cursor st0))
                      (mkCodeRange (cursor st) (cursor st0)))
      by (split; apply pos_le_refl).
    split; [exact M|]. split.
    + intros k.
      destruct (decide (meta_key node SyntacticPositionProvider = k)) as [<-|Hne].
      * right. rewrite lookup_insert_eq. eauto.
      * rewrite lookup_insert_ne by exact Hne. apply B.
    + intros Hr n Hn.
      destruct (decide (node_id node = n)) as [<-|Hne].
      * rewrite lookup_insert_eq. eauto.
      * rewrite lookup_insert_ne by (unfold meta_key; congruence).
        apply C; [exact Hr|].
        cbn [records] in Hn.
        destruct (Nat.eqb_spec (node_id node) n) as [?|_]; [contradiction|].
        exact Hn.
Qed.

Lemma record_syntactic_position_basic (node : CSTNode) (body : Codegen) st md :
  cls st = CodegenStateCls ->
  record_syntactic_position node body st md = body st md.
Proof. unfold record_syntactic_position. intros ->. reflexivity. Qed.

Lemma syntactic_bracket_eq (node : CSTNode) (body : Codegen)
    (st st' : CodegenState) (md md' : Metadata) (r : exc unit) :
  cls st = SyntacticCodegenStateCls ->
  body st md = (r, st', md') ->
  record_syntactic_position node body st md =
    (r, st', <[meta_key node (provider st') :=
                 mkCodeRange (cursor st) (cursor st')]> md').
Proof.
  intros Hcls Hbody.
  unfold record_syntactic_position,
    SyntacticCodegenState_record_syntactic_position.
  rewrite Hcls, Hbody. reflexivity.
Qed.

(** C5. On a syntactic state, [record_syntactic_position] takes the cursor
    on entry as the start, runs the wrapped block, and however the block
    ends (returning or raising) takes the cursor then as the end, stores the
    range from start to end for the node under the syntactic provider, and
    ends the way the block did. *)
Theorem record_syntactic_position_scoped
    (node : CSTNode) (body : Codegen) (st st' : CodegenState)
    (md md' : Metadata) (r : exc unit) :
  cls st = SyntacticCodegenStateCls ->
  body st md = (r, st', md') ->
  provider st' = SyntacticPositionProvider ->
  let recorded := mkCodeRange (cursor st) (cursor st') in
  record_syntactic_position node body st md =
    (r, st', <[meta_key node SyntacticPositionProvider := recorded]> md') /\
  range_of (snd (record_syntactic_position node body st md)) node
    SyntacticPositionProvider = Some recorded /\
  (forall k, k <> meta_key node SyntacticPositionProvider ->
             snd (record_syntactic_position node body st md) !! k = md' !! k).
Proof.
  intros Hcls Hbody Hprov. cbv zeta.
  assert (E : record_syntactic_position node body st md =
              (r, st', <[meta_key node SyntacticPositionProvider :=
                           mkCodeRange (cursor st) (cursor st')]> md')).
  { unfold record_syntactic_position,
      SyntacticCodegenState_record_syntactic_position.
    rewrite Hcls, Hbody, Hprov. reflexivity. }
  rewrite E. simpl. unfold range_of.
  split; [reflexivity|]. split; [apply lookup_insert_eq|].
  intros k Hk. apply lookup_insert_ne. congruence.
Qed.

Lemma record_syntactic_position_scoped_witness :
  let node := mkCSTNode 7 (lit "Name") in
  let st := new_SyntacticCodegenState (lit "    ") [LF] in
  let body := run (Seq (AddToken (lit "x")) DecreaseIndent) in
  fst (fst (record_syntactic_position node body st ∅)) =
    Raise (IndexError (lit "pop from empty list")) /\
  range_of (snd (record_syntactic_position node body st ∅)) node
    SyntacticPositionProvider =
    Some (mkCodeRange (mkCodePosition 1 0) (mkCodePosition 1 1)).
Proof.
  cbv zeta.
  destruct (record_syntactic_position_scoped
              (mkCSTNode 7 (lit "Name"))
              (run (Seq (AddToken (lit "x")) DecreaseIndent))
              (new_SyntacticCodegenState (lit "    ") [LF])
              (mkCodegenState SyntacticCodegenStateCls (lit "    ") [LF]
                 SyntacticPositionProvider [] [lit "x"] 1 1)
              ∅ ∅ (Raise (IndexError (lit "pop from empty list")))
              eq_refl eq_refl eq_refl) as (H1 & H2 & _).
  split; [rewrite H1; reflexivity|exact H2].
Defined.

(** C6. On a syntactic state, when the recording of a parent node wraps the
    script [body]: the cursor does not move back; the parent's range runs
    from the cursor on entry to the cursor on exit; every range the run put
    on record for a node lies within the parent's; and when the run returns,
    every node that [body] records has a range on record within the
    parent's.  Positions are compared by line, then column. *)
Theorem syntactic_ranges_nest
    (parent child : CSTNode) (body : script) (st st' : CodegenState)
    (md md' : Metadata) (r : exc unit) :
  cls st = SyntacticCodegenStateCls ->
  provider st = SyntacticPositionProvider ->
  run (RecordSyntactic parent body) st md = (r, st', md') ->
  let rp := mkCodeRange (cursor st) (cursor st') in
  pos_le (cursor st) (cursor st') /\
  range_of md' parent SyntacticPositionProvider = Some rp /\
  (forall rc,
     range_of md' child SyntacticPositionProvider = Some rc ->
     range_of md child SyntacticPositionProvider <> Some rc ->
     range_within rc rp) /\
  (r = Ok tt ->
   records body (node_id child) = true ->
   exists rc,
     range_of md' child SyntacticPositionProvider = Some rc /\
     range_within rc rp).
Proof.
  intros Hcls Hprov Hrun. cbv zeta.
  destruct (run_syntactic_invariant _ _ _ _ _ _ Hcls Hprov Hrun) as (M & B & C).
  split; [exact M|]. split; [|split].
  - simpl in Hrun.
    destruct (run body st md) as [[r0 st0] md0] eqn:Hb.
    destruct (run_frame _ _ _ _ _ _ Hb) as [_ Hp].
    rewrite (syntactic_bracket_eq parent (run body) st st0 md md0 r0 Hcls Hb)
      in Hrun.
    injection Hrun as <- <- <-. unfold range_of.
    rewrite <- Hprov, <- Hp. apply lookup_insert_eq.
  - intros rc Hrc Hold. unfold range_of in *.
    destruct (B (meta_key child SyntacticPositionProvider))
      as [Hk|(rg & Hk & Hw)]; [congruence|].
    rewrite Hrc in Hk. injection Hk as ->. exact Hw.
  - intros Hr Hrec. unfold range_of, meta_key.
    apply (C Hr). cbn [records]. rewrite Hrec. apply orb_true_r.
Qed.

Lemma syntactic_ranges_nest_witness :
  let parent := mkCSTNode 1 (lit "Module") in
  let child := mkCSTNode 2 (lit "Name") in
  let body :=
    Seq (AddToken (lit "a"))
      (Seq (RecordSyntactic child (AddToken (lit "b" ++ [LF] ++ lit "cd")))
           (AddToken (lit "e"))) in
  let st := new_SyntacticCodegenState (lit "    ") [LF] in
  let md' := snd (run (RecordSyntactic parent body) st ∅) in
  range_of md' parent SyntacticPositionProvider =
    Some (mkCodeRange (mkCodePosition 1 0) (mkCodePosition 2 3)) /\
  exists rc,
    range_of md' child SyntacticPositionProvider = Some rc /\
    range_within rc (mkCodeRange (mkCodePosition 1 0) (mkCodePosition 2 3)).
Proof.
  cbv zeta.
  set (parent := mkCSTNode 1 (lit "Module")).
  set (child := mkCSTNode 2 (lit "Name")).
  set (body := Seq _ _).
  set (st := new_SyntacticCodegenState _ _).
  set (st' := mkCodegenState SyntacticCodegenStateCls (lit "    ") [LF]
                SyntacticPositionProvider []
                [lit "a"; lit "b" ++ [LF] ++ lit "cd"; lit "e"] 2 3).
  set (md' := <[meta_key parent SyntacticPositionProvider :=
                  mkCodeRange (mkCodePosition 1 0) (mkCodePosition 2 3)]>
              (<[meta_key child SyntacticPositionProvider :=
                   mkCodeRange (mkCodePosition 1 1) (mkCodePosition 2 2)]>
                 (∅ : Metadata))).
  assert (Hrun : run (RecordSyntactic parent body) st ∅ = (Ok tt, st', md'))
    by (vm_compute; reflexivity).
  destruct (syntactic_ranges_nest parent child body st st' ∅ md' (Ok tt)
              eq_refl eq_refl Hrun) as (_ & Hp & _ & Hnest).
  rewrite Hrun. simpl snd.
  split; [exact Hp|].
  apply Hnest; reflexivity.
Defined.

(** ** Traversal helpers *)

Lemma starts_with_app (x b : pystr) : starts_with x (x ++ b) = true.
Proof.
  induction x as [|c x IH]; [reflexivity|].
  simpl. rewrite N.eqb_refl. exact IH.
Qed.

Lemma contains_app (x a b : pystr) : contains x (a ++ x ++ b) = true.
Proof.
  induction a as [|c a IH]; simpl.
  - destruct (x ++ b) eqn:E; simpl; rewrite <- E, starts_with_app; reflexivity.
  - rewrite IH. apply orb_true_r.
Qed.

Lemma removal_message_names_type (node : CSTNode) :
  contains (type_name node) (removal_message node) = true.
Proof.
  unfold removal_message. rewrite <- !app_assoc. apply contains_app.
Qed.

Lemma visit_all_length {V} (visit : CSTNode -> V -> visit_result * V)
    (children : list CSTNode) : forall v,
  length (fst (visit_all visit children v)) = length children.
Proof.
  induction children as [|child rest IH]; intros v; simpl; [reflexivity|].
  destruct (visit child v) as [r v'].
  specialize (IH v'). destruct (visit_all visit rest v') as [rs v''].
  simpl in *. congruence.
Qed.

Lemma tuple_of_visit_all {V} (visit : CSTNode -> V -> visit_result * V)
    (gen : list CSTNode) : forall fuel acc v,
  (length gen < fuel)%nat ->
  tuple_of visit fuel gen acc v =
    (Ok (acc ++ kept (fst (visit_all visit gen v))),
     snd (visit_all visit gen v)).
Proof.
  induction gen as [|child rest IH]; intros fuel acc v Hfuel;
    (destruct fuel as [|fuel]; [simpl in Hfuel; lia|]).
  - simpl. rewrite app_nil_r. reflexivity.
  - simpl in Hfuel. cbn [tuple_of visit_iterable_next visit_all].
    destruct (visit child v) as [[n|] v'].
    + rewrite IH by lia.
      destruct (visit_all visit rest v') as [rs v'']. simpl.
      rewrite <- app_assoc. reflexivity.
    + specialize (IH (S fuel) acc v' ltac:(lia)).
      cbn [tuple_of] in IH. rewrite IH.
      destruct (visit_all visit rest v') as [rs v'']. reflexivity.
Qed.

Lemma kept_sublist {V} (visit : CSTNode -> V -> visit_result * V)
    (children : list CSTNode) :
  (forall n u, fst (visit n u) = Node n \/ fst (visit n u) = REMOVE) ->
  forall v, sublist (kept (fst (visit_all visit children v))) children.
Proof.
  intros Hvisit.
  induction children as [|child rest IH]; intros v; simpl; [constructor|].
  pose proof (Hvisit child v) as Hc.
  destruct (visit child v) as [r v']. simpl in Hc.
  specialize (IH v'). destruct (visit_all visit rest v') as [rs v''].
  simpl in *. destruct Hc as [-> | ->]; simpl.
  - apply sublist_skip. exact IH.
  - apply sublist_cons. exact IH.
Qed.

(** C2. [visit_sequence] visits the children in order, each once, and
    returns the nodes the visits produced, in that order, without the
    removed ones; a visitor that only keeps or removes returns a
    subsequence of the children.  Removing everything turns [a; b; c] into
    [], removing only [b] turns it into [a; c]. *)
Theorem visit_sequence_drops_removed {V : Type}
    (visit : CSTNode -> V -> visit_result * V)
    (fieldname : pystr) (children : list CSTNode) (v : V) :
  visit_sequence visit fieldname children v =
    (Ok (kept (fst (visit_all visit children v))),
     snd (visit_all visit children v)) /\
  length (fst (visit_all visit children v)) = length children /\
  ((forall n u, fst (visit n u) = Node n \/ fst (visit n u) = REMOVE) ->
   sublist (kept (fst (visit_all visit children v))) children) /\
  (forall a b c,
     visit_sequence (fun _ u => (REMOVE, u)) fieldname [a; b; c] v =
       (Ok [], v)) /\
  (forall a b c,
     node_id a <> node_id b -> node_id c <> node_id b ->
     visit_sequence
       (fun n u => (if (node_id n =? node_id b)%nat then REMOVE else Node n, u))
       fieldname [a; b; c] v = (Ok [a; c], v)).
Proof.
  split; [|split; [|split; [|split]]].
  - unfold visit_sequence, visit_iterable.
    rewrite tuple_of_visit_all by lia. reflexivity.
  - apply visit_all_length.
  - intros H. apply kept_sublist. exact H.
  - intros a b c. reflexivity.
  - intros a b c Ha Hc.
    unfold visit_sequence, visit_iterable.
    rewrite tuple_of_visit_all by (simpl; lia).
    cbn [visit_all fst snd].
    destruct (Nat.eqb_spec (node_id a) (node_id b)); [contradiction|].
    destruct (Nat.eqb_spec (node_id c) (node_id b)); [contradiction|].
    rewrite Nat.eqb_refl. reflexivity.
Qed.

Lemma visit_sequence_drops_removed_witness :
  let a := mkCSTNode 1 (lit "Name") in
  let b := mkCSTNode 2 (lit "Pass") in
  let c := mkCSTNode 3 (lit "Expr") in
  visit_sequence
    (fun n (u : list nat) =>
       (if (node_id n =? 2)%nat then REMOVE else Node n, u ++ [node_id n]))
    (lit "body") [a; b; c] [] = (Ok [a; c], [1; 2; 3]%nat) /\
  visit_sequence
    (fun n (u : unit) => (if (node_id n =? 2)%nat then REMOVE else Node n, u))
    (lit "body") [a; b; c] tt = (Ok [a; c], tt).
Proof.
  cbv zeta. split.
  - rewrite (proj1 (visit_sequence_drops_removed
                      (fun n (u : list nat) =>
                         (if (node_id n =? 2)%nat then REMOVE else Node n,
                          u ++ [node_id n]))
                      (lit "body")
                      [mkCSTNode 1 (lit "Name"); mkCSTNode 2 (lit "Pass");
                       mkCSTNode 3 (lit "Expr")] [])).
    reflexivity.
  - apply (proj2 (proj2 (proj2 (proj2
             (visit_sequence_drops_removed
                (fun n (u : unit) => (Node n, u)) (lit "body") [] tt))))
             (mkCSTNode 1 (lit "Name")) (mkCSTNode 2 (lit "Pass"))
             (mkCSTNode 3 (lit "Expr"))); simpl; lia.
Defined.

(** C7. [visit_sentinel] on a slot that holds the placeholder returns the
    slot as it is and leaves the visitor untouched; on a node whose visit
    asks for removal it returns the placeholder; otherwise it returns the
    node the visit produced. *)
Theorem visit_sentinel_cases {V : Type}
    (visit : CSTNode -> V -> visit_result * V)
    (fieldname : pystr) (slot : sentinel_slot) (v : V) :
  match slot with
  | Sentinel m =>
      visit_sentinel visit fieldname slot v = (Ok slot, v) /\
      forall (visit' : CSTNode -> V -> visit_result * V),
        visit_sentinel visit' fieldname slot v = (Ok slot, v)
  | Real node =>
      match visit node v with
      | (REMOVE, v') =>
          visit_sentinel visit fieldname slot v = (Ok (Sentinel DEFAULT), v')
      | (Node n, v') =>
          visit_sentinel visit fieldname slot v = (Ok (Real n), v')
      end
  end.
Proof.
  destruct slot as [node|[]]; simpl.
  - destruct (visit node v) as [[n|] v']; reflexivity.
  - split; [reflexivity|]. intros visit'. reflexivity.
Qed.

(** C4, as the code has it.  [visit_required] raises exactly when the visit
    of the node asks for removal: a [TypeError] whose message names the type
    of the node and is the same whatever the field name is; otherwise it
    returns the node the visit produced.  The node is visited once either
    way.  [visit_optional], [visit_sentinel] and [visit_sequence] never
    raise. *)
Theorem visit_required_rejects_removal {V : Type}
    (visit : CSTNode -> V -> visit_result * V)
    (fieldname : pystr) (node : CSTNode) (v : V) :
  let result := fst (visit node v) in
  let v' := snd (visit node v) in
  (result = REMOVE <->
   exists e, fst (visit_required visit fieldname node v) = Raise e) /\
  (result = REMOVE ->
   visit_required visit fieldname node v =
     (Raise (TypeError (removal_message node)), v')) /\
  (forall n, result = Node n ->
             visit_required visit fieldname node v = (Ok n, v')) /\
  contains (type_name node) (removal_message node) = true /\
  (forall fieldname',
     visit_required visit fieldname' node v =
     visit_required visit fieldname node v) /\
  (forall slot, exists r u,
     visit_optional visit fieldname slot v = (Ok r, u)) /\
  (forall slot, exists r u,
     visit_sentinel visit fieldname slot v = (Ok r, u)) /\
  (forall children, exists r u,
     visit_sequence visit fieldname children v = (Ok r, u)).
Proof.
  cbv zeta.
  assert (Hopt : forall slot, exists r u,
            visit_optional visit fieldname slot v = (Ok r, u)).
  { intros [node'|]; simpl; [|eauto].
    destruct (visit node' v) as [[?|] ?]; eauto. }
  assert (Hsen : forall slot, exists r u,
            visit_sentinel visit fieldname slot v = (Ok r, u)).
  { intros [node'|m]; simpl; [|eauto].
    destruct (visit node' v) as [[?|] ?]; eauto. }
  assert (Hseq : forall children, exists r u,
            visit_sequence visit fieldname children v = (Ok r, u)).
  { intros children. unfold visit_sequence, visit_iterable.
    rewrite tuple_of_visit_all by lia. eauto. }
  pose proof (removal_message_names_type node) as Hname.
  unfold visit_required.
  destruct (visit node v) as [[n|] v']; simpl.
  - split; [split; [discriminate|intros [e He]; discriminate He]|].
    split; [discriminate|].
    split; [intros n' Hn; injection Hn as ->; reflexivity|].
    auto.
  - split; [split; [eauto|reflexivity]|].
    split; [reflexivity|].
    split; [discriminate|].
    auto.
Qed.

Lemma visit_required_rejects_removal_witness :
  let node := mkCSTNode 5 (lit "Name") in
  visit_required (fun _ (u : unit) => (REMOVE, u)) (lit "value") node tt =
    (Raise (TypeError (removal_message node)), tt) /\
  visit_required (fun n (u : unit) => (Node n, u)) (lit "value") node tt =
    (Ok node, tt).
Proof.
  cbv zeta. split.
  - apply (proj1 (proj2 (visit_required_rejects_removal
                           (fun _ (u : unit) => (REMOVE, u)) (lit "value")
                           (mkCSTNode 5 (lit "Name")) tt))).
    reflexivity.
  - apply (proj1 (proj2 (proj2 (visit_required_rejects_removal
                                  (fun n (u : unit) => (Node n, u))
                                  (lit "value")
                                  (mkCSTNode 5 (lit "Name")) tt)))).
    reflexivity.
Defined.

(** The error of [visit_required] for the field ["body"] of a parent and a
    [Name] node that the visitor removes: the message has the type name in
    it and not the field name. *)
Lemma visit_required_message_omits_field :
  let node := mkCSTNode 5 (lit "Name") in
  exists msg,
    visit_required (fun _ (u : unit) => (REMOVE, u)) (lit "body") node tt =
      (Raise (TypeError msg), tt) /\
    contains (lit "Name") msg = true /\
    contains (lit "body") msg = false.
Proof.
  cbv zeta. eexists. split; [reflexivity|].
  split; vm_compute; reflexivity.
Qed.

(** * Further properties *)

(** ** The newline pattern and its split *)

(** X1. A match of [NEWLINE_RE] at the start of a text consumes a carriage
    return with the line feed after it, or else one carriage return or one
    line feed; there is no match exactly when the text is empty or starts
    with another character. *)
Theorem NEWLINE_RE_match_shape (s : pystr) :
  match re_match NEWLINE_RE s Some with
  | Some rest =>
      exists m, s = m ++ rest /\
                (m = [CR; LF] \/
                 (m = [CR] /\ head rest <> Some LF) \/
                 m = [LF])
  | None =>
      match s with
      | [] => True
      | c :: _ => is_newline_char c = false
      end
  end.
Proof.
  destruct s as [|c s]; [exact I|].
  rewrite NEWLINE_RE_match_cons. unfold is_newline_char.
  destruct (N.eqb_spec c CR) as [->|Hcr].
  - destruct s as [|d s'].
    + exists [CR]. split; [reflexivity|]. right; left. split; [reflexivity|].
      discriminate.
    + destruct (N.eqb_spec d LF) as [->|Hlf].
      * exists [CR; LF]. auto.
      * exists [CR]. split; [reflexivity|]. right; left.
        split; [reflexivity|]. simpl. congruence.
  - destruct (N.eqb_spec c LF) as [->|Hlf]; [|reflexivity].
    exists [LF]. auto.
Qed.

Lemma has_newline_app (a b : pystr) :
  has_newline (a ++ b) = has_newline a || has_newline b.
Proof. apply existsb_app. Qed.

Lemma split_from_segments fuel : forall s seg,
  (length s < fuel)%nat ->
  has_newline seg = false ->
  Forall (fun g => has_newline g = false) (split_from fuel NEWLINE_RE s seg) /\
  concat (split_from fuel NEWLINE_RE s seg) =
    seg ++ List.filter (fun c => negb (is_newline_char c)) s.
Proof.
  induction fuel as [|fuel IH]; intros s seg Hlen Hseg; [lia|].
  destruct s as [|c s'].
  { simpl. rewrite !app_nil_r. split; [repeat constructor; exact Hseg|reflexivity]. }
  cbn [split_from]. rewrite NEWLINE_RE_match_cons.
  cbn [List.filter]. simpl in Hlen.
  destruct (c =? CR)%N eqn:Hcr.
  - assert (Hc : is_newline_char c = true)
      by (unfold is_newline_char; rewrite Hcr; reflexivity).
    rewrite Hc. cbn [negb].
    destruct s' as [|d s''].
    + destruct (IH [] [] ltac:(simpl; lia) eq_refl) as [IHf IHc].
      cbn [length Nat.ltb Nat.leb].
      split; [constructor; assumption|].
      cbn [concat]. rewrite IHc. reflexivity.
    + destruct (d =? LF)%N eqn:Hlf.
      * assert (Hd : is_newline_char d = true)
          by (unfold is_newline_char; rewrite Hlf; apply orb_true_r).
        assert (Hlt : (length s'' <? length (c :: d :: s''))%nat = true)
          by (apply Nat.ltb_lt; simpl; lia).
        rewrite Hlt.
        destruct (IH s'' [] ltac:(simpl in Hlen; lia) eq_refl) as [IHf IHc].
        split; [constructor; assumption|].
        cbn [concat List.filter]. rewrite IHc, Hd. reflexivity.
      * assert (Hlt : (length (d :: s'') <? length (c :: d :: s''))%nat = true)
          by (apply Nat.ltb_lt; simpl; lia).
        rewrite Hlt.
        destruct (IH (d :: s'') [] ltac:(lia) eq_refl) as [IHf IHc].
        split; [constructor; assumption|].
        cbn [concat]. rewrite IHc. reflexivity.
  - destruct (c =? LF)%N eqn:Hlf.
    + assert (Hc : is_newline_char c = true)
        by (unfold is_newline_char; rewrite Hlf; apply orb_true_r).
      rewrite Hc. cbn [negb].
      assert (Hlt : (length s' <? length (c :: s'))%nat = true)
        by (apply Nat.ltb_lt; simpl; lia).
      rewrite Hlt.
      destruct (IH s' [] ltac:(lia) eq_refl) as [IHf IHc].
      split; [constructor; assumption|].
      cbn [concat]. rewrite IHc. reflexivity.
    + assert (Hc : is_newline_char c = false)
        by (unfold is_newline_char; rewrite Hcr, Hlf; reflexivity).
      rewrite Hc. cbn [negb].
      assert (Hseg' : has_newline (seg ++ [c]) = false).
      { rewrite has_newline_app, Hseg. simpl. rewrite Hc. reflexivity. }
      destruct (IH s' (seg ++ [c]) ltac:(lia) Hseg') as [IHf IHc].
      split; [exact IHf|].
      rewrite IHc. rewrite <- app_assoc. reflexivity.
Qed.

(** X2. The segments [NEWLINE_RE.split] returns hold no carriage return and
    no line feed, and put together they are the value with those characters
    taken out; there is always at least one segment. *)
Theorem split_NEWLINE_RE_segments (value : pystr) :
  Re.split NEWLINE_RE value <> [] /\
  Forall (fun g => has_newline g = false) (Re.split NEWLINE_RE value) /\
  concat (Re.split NEWLINE_RE value) =
    List.filter (fun c => negb (is_newline_char c)) value.
Proof.
  split; [apply split_from_nonempty|].
  apply (split_from_segments (S (length value)) value []); [lia|reflexivity].
Qed.

(** ** Cursor arithmetic over concatenation *)

Lemma crlf_split_nil (b : pystr) : crlf_split [] b = false.
Proof. reflexivity. Qed.

Lemma crlf_split_tail (c d : pychar) (a b : pystr) :
  crlf_split (c :: d :: a) b = crlf_split (d :: a) b.
Proof. reflexivity. Qed.

Lemma newline_count_cons2 (c d : N) (s : pystr) :
  newline_count (c :: d :: s) =
    if (c =? CR)%N then
      if (d =? LF)%N then S (newline_count s) else S (newline_count (d :: s))
    else if (c =? LF)%N then S (newline_count (d :: s))
    else newline_count (d :: s).
Proof. reflexivity. Qed.

Lemma newline_count_app (a b : pystr) :
  crlf_split a b = false ->
  newline_count (a ++ b) = (newline_count a + newline_count b)%nat.
Proof.
  assert (H : forall n (a : pystr), (length a <= n)%nat ->
            crlf_split a b = false ->
            newline_count (a ++ b) = (newline_count a + newline_count b)%nat).
  { clear a. induction n as [|n IH]; intros a Hlen Hsafe.
    - destruct a; [reflexivity|simpl in Hlen; lia].
    - destruct a as [|c a']; [reflexivity|].
      simpl in Hlen.
      destruct a' as [|d a''].
      + unfold crlf_split in Hsafe. cbn [List.last] in Hsafe.
        cbn [app newline_count].
        destruct (c =? CR)%N.
        * destruct b as [|e b']; [reflexivity|].
          simpl in Hsafe. rewrite Hsafe. reflexivity.
        * destruct (c =? LF)%N; reflexivity.
      + rewrite crlf_split_tail in Hsafe.
        change ((c :: d :: a'') ++ b) with (c :: d :: (a'' ++ b)).
        rewrite (newline_count_cons2 c d (a'' ++ b)),
          (newline_count_cons2 c d a'').
        assert (IHd : newline_count (d :: (a'' ++ b)) =
                      (newline_count (d :: a'') + newline_count b)%nat)
          by (apply (IH (d :: a'')); [lia|exact Hsafe]).
        destruct (c =? CR)%N.
        * destruct (d =? LF)%N eqn:Hlf.
          -- assert (IHa : newline_count (a'' ++ b) =
                           (newline_count a'' + newline_count b)%nat).
             { apply IH; [simpl in Hlen; lia|].
               destruct a'' as [|e a3]; [apply crlf_split_nil|].
               rewrite crlf_split_tail in Hsafe. exact Hsafe. }
             rewrite IHa. reflexivity.
          -- rewrite IHd. reflexivity.
        * destruct (c =? LF)%N; rewrite IHd; reflexivity. }
  apply (H (length a)). lia.
Qed.

Lemma after_last_newline_none (s : pystr) :
  has_newline s = false -> after_last_newline s = s.
Proof.
  destruct s as [|c s']; [reflexivity|].
  rewrite has_newline_cons. intros H.
  apply orb_false_iff in H. destruct H as [Hc Hs].
  cbn [after_last_newline]. rewrite Hs, Hc. reflexivity.
Qed.

Lemma after_last_newline_app (a b : pystr) :
  after_last_newline (a ++ b) =
    if has_newline b then after_last_newline b
    else after_last_newline a ++ b.
Proof.
  induction a as [|c a' IH].
  - simpl. destruct (has_newline b) eqn:Hb; [reflexivity|].
    apply after_last_newline_none. exact Hb.
  - change ((c :: a') ++ b) with (c :: (a' ++ b)).
    cbn [after_last_newline]. rewrite has_newline_app, IH.
    destruct (has_newline b); [rewrite orb_true_r; reflexivity|].
    rewrite orb_false_r.
    destruct (has_newline a'); [reflexivity|].
    destruct (is_newline_char c); reflexivity.
Qed.

Lemma newline_count_none (s : pystr) :
  has_newline s = false -> newline_count s = 0%nat.
Proof.
  rewrite newline_count_has_newline.
  destruct (newline_count s); [reflexivity|discriminate].
Qed.

Lemma set_cursor_eq ln col ln' col' st :
  ln = ln' -> col = col' -> set_cursor ln col st = set_cursor ln' col' st.
Proof. intros -> ->. reflexivity. Qed.

(** X3. The cursor moves over a value cut in two the way it moves over the
    whole value, unless the cut falls between a carriage return and a line
    feed. *)
Theorem update_position_app (a b : pystr) (st : CodegenState) :
  crlf_split a b = false ->
  _update_position (a ++ b) st = _update_position b (_update_position a st).
Proof.
  intros Hsafe. rewrite !update_position_cursor.
  rewrite has_newline_app, after_last_newline_app,
    (newline_count_app a b Hsafe).
  unfold len. rewrite length_app.
  destruct (has_newline a) eqn:Ha, (has_newline b) eqn:Hb; simpl orb; cbv iota;
    unfold set_cursor; simpl; f_equal;
    rewrite ?(newline_count_none _ Ha), ?(newline_count_none _ Hb),
      ?length_app; lia.
Qed.

Lemma update_position_app_witness :
  _update_position (lit "ab" ++ [CR] ++ lit "cd")
    (new_CodegenState (lit "    ") [LF]) =
  _update_position (lit "cd")
    (_update_position (lit "ab" ++ [CR]) (new_CodegenState (lit "    ") [LF])).
Proof.
  apply (update_position_app (lit "ab" ++ [CR]) (lit "cd")
           (new_CodegenState (lit "    ") [LF])).
  reflexivity.
Defined.

Lemma add_token_tokens (value : pystr) (st : CodegenState) :
  tokens (add_token value st) = tokens st ++ [value].
Proof.
  unfold add_token.
  destruct (update_position_frame value (set_tokens (tokens st ++ [value]) st))
    as (_ & _ & _ & H).
  rewrite H. reflexivity.
Qed.

Lemma text_position_step (acc value : pystr) (st : CodegenState) :
  cursor st = text_position acc ->
  crlf_split acc value = false ->
  cursor (_update_position value st) = text_position (acc ++ value).
Proof.
  unfold cursor, text_position. intros Hcur Hsafe.
  injection Hcur as Hline Hcol.
  rewrite update_position_cursor, (newline_count_app acc value Hsafe),
    after_last_newline_app.
  destruct (has_newline value) eqn:Hv; simpl; f_equal.
  - lia.
  - rewrite (newline_count_none _ Hv). lia.
  - unfold len in *. rewrite length_app. lia.
Qed.

(** X4. A state whose cursor is the position right after its output text
    keeps that through any run of [add_token] calls in which no value
    starts with a line feed right after a carriage return; the output text
    grows by the values, in order. *)
Theorem emit_all_cursor_tracks_text (values : list pystr) (st : CodegenState) :
  cursor st = text_position (join (tokens st)) ->
  crlf_safe (join (tokens st)) values = true ->
  join (tokens (emit_all values st)) = join (tokens st) ++ join values /\
  cursor (emit_all values st) =
    text_position (join (tokens (emit_all values st))).
Proof.
  revert st. induction values as [|value rest IH]; intros st Hcur Hsafe.
  - simpl. unfold join at 3. simpl. rewrite app_nil_r. auto.
  - cbn [crlf_safe] in Hsafe. apply andb_true_iff in Hsafe.
    destruct Hsafe as [Hsplit Hrest]. apply negb_true_iff in Hsplit.
    assert (Hjoin : join (tokens (add_token value st)) =
                    join (tokens st) ++ value).
    { rewrite add_token_tokens. unfold join. rewrite concat_app. simpl.
      rewrite app_nil_r. reflexivity. }
    assert (Hcur' : cursor (add_token value st) =
                    text_position (join (tokens (add_token value st)))).
    { rewrite Hjoin. unfold add_token.
      apply text_position_step; [exact Hcur|exact Hsplit]. }
    rewrite <- Hjoin in Hrest.
    destruct (IH (add_token value st) Hcur' Hrest) as [IHj IHc].
    change (emit_all (value :: rest) st)
      with (emit_all rest (add_token value st)).
    split; [|exact IHc].
    rewrite IHj, Hjoin. unfold join. simpl. rewrite <- app_assoc. reflexivity.
Qed.

Lemma emit_all_cursor_tracks_text_witness :
  let st := new_CodegenState (lit "    ") [LF] in
  let values := [lit "ab"; [CR; LF]; lit "c"; [LF]; lit "de"] in
  cursor (emit_all values st) = mkCodePosition 3 2.
Proof.
  cbv zeta.
  rewrite (proj2 (emit_all_cursor_tracks_text
                    [lit "ab"; [CR; LF]; lit "c"; [LF]; lit "de"]
                    (new_CodegenState (lit "    ") [LF]) eq_refl eq_refl)).
  rewrite (proj1 (emit_all_cursor_tracks_text
                    [lit "ab"; [CR; LF]; lit "c"; [LF]; lit "de"]
                    (new_CodegenState (lit "    ") [LF]) eq_refl eq_refl)).
  reflexivity.
Defined.

Lemma update_position_set_tokens (value : pystr) (l : list pystr)
    (st : CodegenState) :
  _update_position value (set_tokens l st) =
  set_tokens l (_update_position value st).
Proof.
  rewrite !update_position_cursor. destruct (has_newline value); reflexivity.
Qed.

Lemma emit_all_fold (l : list pystr) : forall st,
  emit_all l st =
  fold_left (fun s token => _update_position token s) l
    (set_tokens (tokens st ++ l) st).
Proof.
  induction l as [|t l IH]; intros st.
  - simpl. rewrite app_nil_r. destruct st; reflexivity.
  - change (emit_all (t :: l) st) with (emit_all l (add_token t st)).
    rewrite IH, add_token_tokens. cbn [fold_left]. f_equal.
    unfold add_token. rewrite !update_position_set_tokens.
    rewrite <- app_assoc. reflexivity.
Qed.

(** X5. [add_indent_tokens] leaves the state that [add_token] called on
    each token of the indent stack, outer to inner, leaves: the same output
    buffer and the same cursor. *)
Theorem add_indent_tokens_emit_all (st : CodegenState) :
  add_indent_tokens st = emit_all (indent_tokens st) st /\
  tokens (add_indent_tokens st) = tokens st ++ indent_tokens st /\
  indent_tokens (add_indent_tokens st) = indent_tokens st.
Proof.
  assert (E : add_indent_tokens st = emit_all (indent_tokens st) st)
    by (rewrite emit_all_fold; reflexivity).
  split; [exact E|]. unfold add_indent_tokens.
  destruct (fold_update_position_frame (indent_tokens st)
              (set_tokens (tokens st ++ indent_tokens st) st))
    as (_ & _ & Hi & Ht).
  cbv zeta in Hi, Ht. rewrite Hi, Ht. split; reflexivity.
Qed.

(** ** Scripts: output, cursor and indent stack *)

Lemma add_indent_tokens_tokens (st : CodegenState) :
  tokens (add_indent_tokens st) = tokens st ++ indent_tokens st.
Proof.
  unfold add_indent_tokens.
  destruct (fold_update_position_frame (indent_tokens st)
              (set_tokens (tokens st ++ indent_tokens st) st))
    as (_ & _ & _ & Ht).
  cbv zeta in Ht. rewrite Ht. reflexivity.
Qed.

Lemma run_tokens_grow (s : script) : forall st md,
  exists more, tokens (snd (fst (run s st md))) = tokens st ++ more.
Proof.
  induction s as [|a IHa b IHb|value| |value| |node body IH]; intros st md;
    simpl.
  - exists []. rewrite app_nil_r. reflexivity.
  - destruct (IHa st md) as [m1 H1].
    destruct (run a st md) as [[ra sta] mda]. simpl in H1.
    destruct ra as [[]|e]; [|exists m1; exact H1].
    destruct (IHb sta mda) as [m2 H2].
    exists (m1 ++ m2). rewrite H2, H1, app_assoc. reflexivity.
  - exists [value]. apply add_token_tokens.
  - exists (indent_tokens st). apply add_indent_tokens_tokens.
  - exists []. rewrite app_nil_r. reflexivity.
  - destruct (decrease_indent_frame st) as (Ht & _).
    destruct (decrease_indent st) as [r0 st0]. simpl in *.
    exists []. rewrite app_nil_r. exact Ht.
  - unfold record_syntactic_position,
      CodegenState_record_syntactic_position,
      SyntacticCodegenState_record_syntactic_position.
    destruct (IH st md) as [m H].
    destruct (cls st); [exists m; exact H|].
    destruct (run body st md) as [[r0 st0] md0]. exists m. exact H.
Qed.

(** X6. Whatever a script does and however it ends, the output buffer after
    it is the buffer before it with fragments added at the end: nothing
    emitted is taken back or changed. *)
Theorem run_output_only_grows (s : script) (st : CodegenState) (md : Metadata) :
  exists more,
    tokens (snd (fst (run s st md))) = tokens st ++ more /\
    join (tokens (snd (fst (run s st md)))) = join (tokens st) ++ join more.
Proof.
  destruct (run_tokens_grow s st md) as [more H].
  exists more. split; [exact H|].
  rewrite H. unfold join. apply concat_app.
Qed.

Lemma update_position_column (value : pystr) (st : CodegenState) :
  0 <= column st -> 0 <= column (_update_position value st).
Proof.
  rewrite update_position_cursor. unfold len.
  destruct (has_newline value); simpl; lia.
Qed.

Lemma fold_update_position_column (l : list pystr) : forall st,
  0 <= column st ->
  0 <= column (fold_left (fun s token => _update_position token s) l st).
Proof.
  induction l as [|t l IH]; intros st H; simpl; [exact H|].
  apply IH. apply update_position_column. exact H.
Qed.

Lemma run_cursor (s : script) : forall st md,
  pos_le (cursor st) (cursor (snd (fst (run s st md)))) /\
  (0 <= column st -> 0 <= column (snd (fst (run s st md)))).
Proof.
  induction s as [|a IHa b IHb|value| |value| |node body IH]; intros st md;
    simpl.
  - split; [apply pos_le_refl|auto].
  - destruct (IHa st md) as [Ma Ca].
    destruct (run a st md) as [[ra sta] mda]. simpl in Ma, Ca.
    destruct ra as [[]|e]; [|split; assumption].
    destruct (IHb sta mda) as [Mb Cb].
    split; [eapply pos_le_trans; eassumption|auto].
  - split; [apply add_token_monotone|].
    intros H. unfold add_token.
    apply (update_position_column value (set_tokens (tokens st ++ [value]) st)).
    exact H.
  - split; [apply add_indent_tokens_monotone|].
    intros H. unfold add_indent_tokens.
    apply (fold_update_position_column (indent_tokens st)
             (set_tokens (tokens st ++ indent_tokens st) st)).
    exact H.
  - split; [apply pos_le_refl|auto].
  - destruct (decrease_indent_frame st) as (_ & Hc & _).
    destruct (decrease_indent st) as [r0 st0]. simpl in *.
    rewrite Hc. split; [apply pos_le_refl|].
    unfold cursor in Hc. injection Hc as _ ->. auto.
  - unfold record_syntactic_position,
      CodegenState_record_syntactic_position,
      SyntacticCodegenState_record_syntactic_position.
    destruct (IH st md) as [M C].
    destruct (cls st); [split; assumption|].
    destruct (run body st md) as [[r0 st0] md0]. split; assumption.
Qed.

(** X7. From a state with line at least 1 and column at least 0, every
    script, on either class of state and however it ends, leaves a state
    with line at least 1 and column at least 0 whose cursor is not before
    the one it started from. *)
Theorem run_cursor_bounds (s : script) (st : CodegenState) (md : Metadata) :
  1 <= line st ->
  0 <= column st ->
  let st' := snd (fst (run s st md)) in
  1 <= line st' /\ 0 <= column st' /\ pos_le (cursor st) (cursor st').
Proof.
  intros Hl Hc. cbv zeta.
  destruct (run_cursor s st md) as [M C].
  split; [|split; [apply C; exact Hc|exact M]].
  unfold pos_le, cursor in M. simpl in M. lia.
Qed.

Lemma run_cursor_bounds_witness :
  let st := new_SyntacticCodegenState (lit "    ") [LF] in
  let s := Seq (AddToken (lit "a" ++ [LF])) (Seq DecreaseIndent (AddToken (lit "b"))) in
  let st' := snd (fst (run s st ∅)) in
  1 <= line st' /\ 0 <= column st' /\ pos_le (cursor st) (cursor st').
Proof.
  cbv zeta.
  apply (run_cursor_bounds
           (Seq (AddToken (lit "a" ++ [LF]))
              (Seq DecreaseIndent (AddToken (lit "b"))))
           (new_SyntacticCodegenState (lit "    ") [LF]) ∅); simpl; lia.
Defined.

Lemma decrease_increase_indent (value : pystr) (st : CodegenState) :
  decrease_indent (increase_indent value st) = (Ok tt, st).
Proof.
  rewrite (decrease_indent_snoc _ (indent_tokens st) value) by reflexivity.
  destruct st; reflexivity.
Qed.

Lemma increase_indent_all_snoc (values : list pystr) (value : pystr) st :
  increase_indent_all (values ++ [value]) st =
  increase_indent value (increase_indent_all values st).
Proof. unfold increase_indent_all. rewrite fold_left_app. reflexivity. Qed.

Lemma increase_indent_all_stack (values : list pystr) : forall st,
  indent_tokens (increase_indent_all values st) = indent_tokens st ++ values.
Proof.
  induction values as [|value rest IH]; intros st; simpl.
  - rewrite app_nil_r. reflexivity.
  - unfold increase_indent_all in IH. rewrite IH. simpl.
    rewrite <- app_assoc. reflexivity.
Qed.

(** X8. Pushing any number of indent tokens and popping as many gives back
    the state from before, whatever was on the stack; and a state with [n]
    tokens on its stack takes [n] pops and raises on the next one. *)
Theorem indent_push_pop_balance (values : list pystr) (st : CodegenState) :
  decrease_indent_n (length values) (increase_indent_all values st) =
    (Ok tt, st) /\
  decrease_indent_n (length (indent_tokens st)) st =
    (Ok tt, set_indent_tokens [] st) /\
  decrease_indent_n (S (length (indent_tokens st))) st =
    (Raise (IndexError (lit "pop from empty list")), set_indent_tokens [] st).
Proof.
  assert (Hbal : forall vs, decrease_indent_n (length vs)
                              (increase_indent_all vs st) = (Ok tt, st)).
  { induction vs as [|v vs IH] using rev_ind; [reflexivity|].
    rewrite length_app, Nat.add_1_r, increase_indent_all_snoc.
    cbn [decrease_indent_n]. rewrite decrease_increase_indent. exact IH. }
  assert (Hall : forall stack s0, indent_tokens s0 = stack ->
            decrease_indent_n (length stack) s0 =
              (Ok tt, set_indent_tokens [] s0)).
  { induction stack as [|v stack IH] using rev_ind; intros s0 Hs.
    - simpl. rewrite <- Hs. destruct s0; reflexivity.
    - rewrite length_app, Nat.add_1_r. cbn [decrease_indent_n].
      rewrite (decrease_indent_snoc s0 stack v Hs).
      rewrite (IH (set_indent_tokens stack s0) eq_refl). reflexivity. }
  assert (Hnext : forall n s0,
            decrease_indent_n (S n) s0 =
              match decrease_indent_n n s0 with
              | (Ok _, s1) => decrease_indent s1
              | (Raise e, s1) => (Raise e, s1)
              end).
  { induction n as [|n IH]; intros s0.
    - simpl. destruct (decrease_indent s0) as [[[]|e] s1]; reflexivity.
    - change (decrease_indent_n (S (S n)) s0)
        with (match decrease_indent s0 with
              | (Ok _, s1) => decrease_indent_n (S n) s1
              | (Raise e, s1) => (Raise e, s1)
              end).
      cbn [decrease_indent_n].
      destruct (decrease_indent s0) as [[[]|e] s1]; [apply IH|reflexivity]. }
  split; [apply Hbal|]. split; [apply Hall; reflexivity|].
  rewrite Hnext, (Hall (indent_tokens st) st eq_refl). reflexivity.
Qed.

(** ** Recording and output are independent *)

Lemma output_of_update_position (value : pystr) (st1 st2 : CodegenState) :
  output_of st1 = output_of st2 ->
  output_of (_update_position value st1) =
  output_of (_update_position value st2).
Proof.
  destruct st1, st2. unfold output_of. simpl. intros H.
  injection H as -> -> -> -> -> ->.
  rewrite !update_position_cursor. destruct (has_newline value); reflexivity.
Qed.

Lemma output_of_fold_update_position (l : list pystr) : forall st1 st2,
  output_of st1 = output_of st2 ->
  output_of (fold_left (fun s token => _update_position token s) l st1) =
  output_of (fold_left (fun s token => _update_position token s) l st2).
Proof.
  induction l as [|t l IH]; intros st1 st2 H; simpl; [exact H|].
  apply IH. apply output_of_update_position. exact H.
Qed.

Lemma output_of_fields (st1 st2 : CodegenState) :
  output_of st1 = output_of st2 ->
  indent_tokens st1 = indent_tokens st2 /\ tokens st1 = tokens st2.
Proof. unfold output_of. intros H. injection H as _ _ -> -> _ _. auto. Qed.

Lemma output_of_set_tokens (l : list pystr) (st1 st2 : CodegenState) :
  output_of st1 = output_of st2 ->
  output_of (set_tokens l st1) = output_of (set_tokens l st2).
Proof.
  unfold output_of. simpl. intros H. injection H as -> -> -> _ -> ->.
  reflexivity.
Qed.

Lemma output_of_set_indent_tokens (l : list pystr) (st1 st2 : CodegenState) :
  output_of st1 = output_of st2 ->
  output_of (set_indent_tokens l st1) = output_of (set_indent_tokens l st2).
Proof.
  unfold output_of. simpl. intros H. injection H as -> -> _ -> -> ->.
  reflexivity.
Qed.

(** X9. What a script emits does not depend on how positions are recorded:
    run on two states that differ only in class, provider and the nodes'
    metadata, it ends the same way and leaves the same output buffer,
    indent stack and cursor. *)
Theorem run_output_independent_of_recording (s : script) :
  forall (st1 st2 : CodegenState) (md1 md2 : Metadata),
  output_of st1 = output_of st2 ->
  fst (fst (run s st1 md1)) = fst (fst (run s st2 md2)) /\
  output_of (snd (fst (run s st1 md1))) =
  output_of (snd (fst (run s st2 md2))).
Proof.
  induction s as [|a IHa b IHb|value| |value| |node body IH];
    intros st1 st2 md1 md2 H; simpl.
  - auto.
  - destruct (IHa st1 st2 md1 md2 H) as [Hr Ho].
    destruct (run a st1 md1) as [[r1 s1] m1].
    destruct (run a st2 md2) as [[r2 s2] m2].
    simpl in Hr, Ho. subst r2.
    destruct r1 as [[]|e]; [apply IHb; exact Ho|auto].
  - split; [reflexivity|]. unfold add_token.
    destruct (output_of_fields _ _ H) as [_ ->].
    apply output_of_update_position, output_of_set_tokens. exact H.
  - split; [reflexivity|]. unfold add_indent_tokens.
    destruct (output_of_fields _ _ H) as [-> ->].
    apply output_of_fold_update_position, output_of_set_tokens. exact H.
  - split; [reflexivity|]. unfold increase_indent.
    destruct (output_of_fields _ _ H) as [-> _].
    apply output_of_set_indent_tokens. exact H.
  - unfold decrease_indent.
    destruct (output_of_fields _ _ H) as [-> _].
    destruct (indent_tokens st2); simpl; [auto|].
    split; [reflexivity|]. apply output_of_set_indent_tokens. exact H.
  - unfold record_syntactic_position,
      CodegenState_record_syntactic_position,
      SyntacticCodegenState_record_syntactic_position.
    specialize (IH st1 st2 md1 md2 H).
    destruct (cls st1), (cls st2);
      destruct (run body st1 md1) as [[r1 s1] m1];
      destruct (run body st2 md2) as [[r2 s2] m2]; exact IH.
Qed.

Lemma run_output_independent_of_recording_witness :
  let s := RecordSyntactic (mkCSTNode 1 (lit "Name"))
             (Seq (IncreaseIndent (lit "  "))
                (Seq AddIndentTokens (AddToken (lit "x" ++ [LF])))) in
  let basic := new_CodegenState (lit "    ") [LF] in
  let syntactic := new_SyntacticCodegenState (lit "    ") [LF] in
  fst (fst (run s basic ∅)) = fst (fst (run s syntactic ∅)) /\
  output_of (snd (fst (run s basic ∅))) =
  output_of (snd (fst (run s syntactic ∅))).
Proof.
  cbv zeta.
  apply (run_output_independent_of_recording
           (RecordSyntactic (mkCSTNode 1 (lit "Name"))
              (Seq (IncreaseIndent (lit "  "))
                 (Seq AddIndentTokens (AddToken (lit "x" ++ [LF])))))
           (new_CodegenState (lit "    ") [LF])
           (new_SyntacticCodegenState (lit "    ") [LF]) ∅ ∅).
  reflexivity.
Defined.

Lemma run_frame_proj (s : script) (st : CodegenState) (md : Metadata) :
  cls (snd (fst (run s st md))) = cls st /\
  provider (snd (fst (run s st md))) = provider st.
Proof.
  destruct (run s st md) as [[r st'] md'] eqn:E.
  exact (run_frame s st md r st' md' E).
Qed.

(** X10. A script run on a state of the base class writes nothing to any
    node's metadata: its [record_syntactic_position] blocks only run what
    they wrap. *)
Theorem run_basic_leaves_metadata (s : script) :
  forall (st : CodegenState) (md : Metadata),
  cls st = CodegenStateCls -> snd (run s st md) = md.
Proof.
  induction s as [|a IHa b IHb|value| |value| |node body IH];
    intros st md Hcls; simpl; try reflexivity.
  - pose proof (IHa st md Hcls) as Ha.
    destruct (run_frame_proj a st md) as [Hc _].
    destruct (run a st md) as [[ra sta] mda]. simpl in Ha, Hc. subst mda.
    destruct ra as [[]|e]; [|reflexivity].
    apply IHb. congruence.
  - destruct (decrease_indent st) as [r0 st0]. reflexivity.
  - unfold record_syntactic_position, CodegenState_record_syntactic_position.
    rewrite Hcls. apply IH. exact Hcls.
Qed.

Lemma run_basic_leaves_metadata_witness :
  snd (run (RecordSyntactic (mkCSTNode 1 (lit "Name")) (AddToken (lit "x")))
         (new_CodegenState (lit "    ") [LF]) ∅) = ∅.
Proof.
  apply (run_basic_leaves_metadata
           (RecordSyntactic (mkCSTNode 1 (lit "Name")) (AddToken (lit "x")))
           (new_CodegenState (lit "    ") [LF]) ∅).
  reflexivity.
Defined.

Lemma run_md_other_provider (s : script) : forall st md k,
  snd k <> provider st ->
  snd (run s st md) !! k = md !! k.
Proof.
  induction s as [|a IHa b IHb|value| |value| |node body IH];
    intros st md k Hk; simpl; try reflexivity.
  - pose proof (IHa st md k Hk) as Ha.
    destruct (run_frame_proj a st md) as [_ Hp].
    destruct (run a st md) as [[ra sta] mda]. simpl in Ha, Hp.
    destruct ra as [[]|e]; [|exact Ha].
    rewrite IHb by congruence. exact Ha.
  - destruct (decrease_indent st) as [r0 st0]. reflexivity.
  - unfold record_syntactic_position,
      CodegenState_record_syntactic_position,
      SyntacticCodegenState_record_syntactic_position.
    pose proof (IH st md k Hk) as Hb.
    destruct (run_frame_proj body st md) as [_ Hp].
    destruct (cls st); [exact Hb|].
    destruct (run body st md) as [[r0 st0] md0]. simpl in *.
    rewrite lookup_insert_ne; [exact Hb|].
    unfold meta_key. intros E. apply Hk. rewrite <- E. simpl. exact Hp.
Qed.

(** X11. A script only writes metadata under the provider of the state it
    runs on: the ranges any node has under another provider are the same
    after the run as before, so a node can hold a range of each provider. *)
Theorem run_keeps_other_providers
    (s : script) (st : CodegenState) (md : Metadata)
    (node : CSTNode) (p : Provider) :
  p <> provider st ->
  range_of (snd (run s st md)) node p = range_of md node p.
Proof.
  intros Hp. unfold range_of. apply run_md_other_provider. exact Hp.
Qed.

Lemma run_keeps_other_providers_witness :
  let node := mkCSTNode 1 (lit "Name") in
  let basic := new_CodegenState (lit "    ") [LF] in
  let syntactic := new_SyntacticCodegenState (lit "    ") [LF] in
  let P := CodeRange_create (1, 0) (4, 0) in
  let md := record_position node P basic ∅ in
  range_of (snd (run (RecordSyntactic node (AddToken (lit "x"))) syntactic md))
    node BasicPositionProvider = Some P.
Proof.
  cbv zeta.
  rewrite (run_keeps_other_providers
             (RecordSyntactic (mkCSTNode 1 (lit "Name")) (AddToken (lit "x")))
             (new_SyntacticCodegenState (lit "    ") [LF])
             (record_position (mkCSTNode 1 (lit "Name"))
                (CodeRange_create (1, 0) (4, 0))
                (new_CodegenState (lit "    ") [LF]) ∅)
             (mkCSTNode 1 (lit "Name")) BasicPositionProvider)
    by discriminate.
  reflexivity.
Defined.

(** ** Which recording wins *)

(** X12. On a syntactic state, a node recorded by two
    [record_syntactic_position] blocks in a row ends with the range of the
    second block: the later recording replaces the earlier one. *)
Theorem syntactic_bracket_last_write_wins
    (node : CSTNode) (a b : script) (st st1 : CodegenState)
    (md md1 : Metadata) :
  cls st = SyntacticCodegenStateCls ->
  provider st = SyntacticPositionProvider ->
  run (RecordSyntactic node a) st md = (Ok tt, st1, md1) ->
  let out := run (Seq (RecordSyntactic node a) (RecordSyntactic node b)) st md in
  range_of md1 node SyntacticPositionProvider =
    Some (mkCodeRange (cursor st) (cursor st1)) /\
  range_of (snd out) node SyntacticPositionProvider =
    Some (mkCodeRange (cursor st1) (cursor (snd (fst out)))).
Proof.
  intros Hcls Hprov Ha. cbv zeta.
  destruct (run_frame _ _ _ _ _ _ Ha) as [Hc1 Hp1].
  split.
  - simpl in Ha.
    destruct (run a st md) as [[ra sta] mda] eqn:Hra.
    destruct (run_frame _ _ _ _ _ _ Hra) as [_ Hpa].
    rewrite (syntactic_bracket_eq node (run a) st sta md mda ra Hcls Hra) in Ha.
    injection Ha as _ <- <-. unfold range_of.
    rewrite <- Hprov, <- Hpa. apply lookup_insert_eq.
  - cbn [run]. cbn [run] in Ha. rewrite Ha.
    destruct (run b st1 md1) as [[rb stb] mdb] eqn:Hrb.
    destruct (run_frame _ _ _ _ _ _ Hrb) as [_ Hpb].
    rewrite (syntactic_bracket_eq node (run b) st1 stb md1 mdb rb
               ltac:(congruence) Hrb).
    simpl. unfold range_of.
    replace SyntacticPositionProvider with (provider stb) by congruence.
    apply lookup_insert_eq.
Qed.

Lemma syntactic_bracket_last_write_wins_witness :
  let node := mkCSTNode 4 (lit "Name") in
  let st := new_SyntacticCodegenState (lit "    ") [LF] in
  let out := run (Seq (RecordSyntactic node (AddToken (lit "ab")))
                      (RecordSyntactic node (AddToken (lit "cde")))) st ∅ in
  range_of (snd out) node SyntacticPositionProvider =
    Some (mkCodeRange (mkCodePosition 1 2) (mkCodePosition 1 5)).
Proof.
  cbv zeta.
  set (node := mkCSTNode 4 (lit "Name")).
  set (st := new_SyntacticCodegenState (lit "    ") [LF]).
  set (st1 := mkCodegenState SyntacticCodegenStateCls (lit "    ") [LF]
                SyntacticPositionProvider [] [lit "ab"] 1 2).
  set (md1 := <[meta_key node SyntacticPositionProvider :=
                  mkCodeRange (mkCodePosition 1 0) (mkCodePosition 1 2)]>
              (∅ : Metadata)).
  assert (Ha : run (RecordSyntactic node (AddToken (lit "ab"))) st ∅ =
               (Ok tt, st1, md1)) by (vm_compute; reflexivity).
  rewrite (proj2 (syntactic_bracket_last_write_wins node
                    (AddToken (lit "ab")) (AddToken (lit "cde"))
                    st st1 ∅ md1 eq_refl eq_refl Ha)).
  reflexivity.
Defined.

(** X13. Once [record_syntactic_position] on a syntactic state has recorded
    a node, [record_position] for that node on the state the block left
    changes nothing: the recorded range is not overwritten. *)
Theorem record_position_after_syntactic
    (node : CSTNode) (body : script) (P : CodeRange)
    (st : CodegenState) (md : Metadata) :
  cls st = SyntacticCodegenStateCls ->
  let out := run (RecordSyntactic node body) st md in
  record_position node P (snd (fst out)) (snd out) = snd out /\
  range_of (snd out) node (provider st) =
    Some (mkCodeRange (cursor st) (cursor (snd (fst out)))).
Proof.
  intros Hcls. cbv zeta. cbn [run].
  destruct (run body st md) as [[r0 st0] md0] eqn:Hb.
  destruct (run_frame _ _ _ _ _ _ Hb) as [_ Hp].
  rewrite (syntactic_bracket_eq node (run body) st st0 md md0 r0 Hcls Hb).
  simpl. split.
  - apply (record_position_keeps st0 node
             (mkCodeRange (cursor st) (cursor st0))).
    unfold range_of. apply lookup_insert_eq.
  - unfold range_of. rewrite <- Hp. apply lookup_insert_eq.
Qed.

Lemma record_position_after_syntactic_witness :
  let node := mkCSTNode 4 (lit "Name") in
  let st := new_SyntacticCodegenState (lit "    ") [LF] in
  let out := run (RecordSyntactic node (AddToken (lit "ab"))) st ∅ in
  range_of (record_position node (CodeRange_create (9, 9) (9, 9))
              (snd (fst out)) (snd out)) node SyntacticPositionProvider =
    Some (mkCodeRange (mkCodePosition 1 0) (mkCodePosition 1 2)).
Proof.
  cbv zeta.
  destruct (record_position_after_syntactic (mkCSTNode 4 (lit "Name"))
              (AddToken (lit "ab")) (CodeRange_create (9, 9) (9, 9))
              (new_SyntacticCodegenState (lit "    ") [LF]) ∅ eq_refl)
    as [Hkeep Hrange].
  cbv zeta in Hkeep, Hrange. rewrite Hkeep. exact Hrange.
Defined.

Lemma record_position_lookup (node node' : CSTNode) (P : CodeRange)
    (st : CodegenState) (md : Metadata) :
  range_of (record_position node P st md) node' (provider st) =
    match range_of md node' (provider st) with
    | Some P0 => Some P0
    | None => if (node_id node =? node_id node')%nat then Some P else None
    end.
Proof.
  unfold range_of, record_position, meta_key.
  destruct (Nat.eqb_spec (node_id node) (node_id node')) as [E|E].
  - rewrite E.
    destruct (md !! (node_id node', provider st)) as [P0|] eqn:H;
      [exact H|apply lookup_insert_eq].
  - destruct (md !! (node_id node, provider st)) as [P0|].
    + destruct (md !! (node_id node', provider st)); reflexivity.
    + rewrite lookup_insert_ne by congruence.
      destruct (md !! (node_id node', provider st)); reflexivity.
Qed.

(** X14. After any sequence of [record_position] calls on one state, a node
    that had a range under the state's provider still has that range, and a
    node that had none has the range of the first call made for it (none if
    no call was for it). *)
Theorem record_all_first_write_wins
    (l : list (CSTNode * CodeRange)) (st : CodegenState) (md : Metadata)
    (node : CSTNode) :
  range_of (record_all l st md) node (provider st) =
    match range_of md node (provider st) with
    | Some P0 => Some P0
    | None => first_range_for (node_id node) l
    end.
Proof.
  revert md. induction l as [|[n p] l IH]; intros md.
  - simpl. destruct (range_of md node (provider st)); reflexivity.
  - change (record_all ((n, p) :: l) st md)
      with (record_all l st (record_position n p st md)).
    rewrite IH, record_position_lookup. cbn [first_range_for].
    destruct (range_of md node (provider st)); [reflexivity|].
    destruct (node_id n =? node_id node)%nat; reflexivity.
Qed.

(** X15. If every range on record starts no later than it ends, that is
    still so after any script, on either class of state and however the
    script ends. *)
Theorem run_keeps_ranges_ordered (s : script) :
  forall (st : CodegenState) (md : Metadata),
  md_well_ordered md ->
  md_well_ordered (snd (run s st md)).
Proof.
  induction s as [|a IHa b IHb|value| |value| |node body IH];
    intros st md Hmd; simpl; try exact Hmd.
  - pose proof (IHa st md Hmd) as Ha.
    destruct (run a st md) as [[ra sta] mda]. simpl in Ha.
    destruct ra as [[]|e]; [apply IHb; exact Ha|exact Ha].
  - destruct (decrease_indent st) as [r0 st0]. exact Hmd.
  - unfold record_syntactic_position,
      CodegenState_record_syntactic_position,
      SyntacticCodegenState_record_syntactic_position.
    pose proof (IH st md Hmd) as Hb.
    destruct (run_cursor body st md) as [M _].
    destruct (cls st); [exact Hb|].
    destruct (run body st md) as [[r0 st0] md0]. simpl in *.
    intros k rg Hk.
    destruct (decide (meta_key node (provider st0) = k)) as [<-|Hne].
    + rewrite lookup_insert_eq in Hk. injection Hk as <-. exact M.
    + rewrite lookup_insert_ne in Hk by exact Hne. eapply Hb. exact Hk.
Qed.

Lemma run_keeps_ranges_ordered_witness :
  md_well_ordered
    (snd (run (RecordSyntactic (mkCSTNode 1 (lit "Name"))
                 (AddToken (lit "x" ++ [LF])))
            (new_SyntacticCodegenState (lit "    ") [LF]) ∅)).
Proof.
  apply (run_keeps_ranges_ordered
           (RecordSyntactic (mkCSTNode 1 (lit "Name"))
              (AddToken (lit "x" ++ [LF])))
           (new_SyntacticCodegenState (lit "    ") [LF]) ∅).
  intros k rg Hk. rewrite lookup_empty in Hk. discriminate Hk.
Defined.

(** ** More on the traversal helpers *)

Lemma visit_all_app {V} (visit : CSTNode -> V -> visit_result * V)
    (l1 l2 : list CSTNode) : forall v,
  visit_all visit (l1 ++ l2) v =
    (fst (visit_all visit l1 v) ++
       fst (visit_all visit l2 (snd (visit_all visit l1 v))),
     snd (visit_all visit l2 (snd (visit_all visit l1 v)))).
Proof.
  induction l1 as [|child rest IH]; intros v; simpl.
  - destruct (visit_all visit l2 v); reflexivity.
  - destruct (visit child v) as [r v']. rewrite IH.
    destruct (visit_all visit rest v') as [rs v'']. reflexivity.
Qed.

Lemma kept_app (rs1 rs2 : list visit_result) :
  kept (rs1 ++ rs2) = kept rs1 ++ kept rs2.
Proof.
  induction rs1 as [|[n|] rs1 IH]; simpl; [reflexivity| |exact IH].
  rewrite IH. reflexivity.
Qed.

Lemma visit_sequence_eq {V} (visit : CSTNode -> V -> visit_result * V)
    (fieldname : pystr) (children : list CSTNode) (v : V) :
  visit_sequence visit fieldname children v =
    (Ok (kept (fst (visit_all visit children v))),
     snd (visit_all visit children v)).
Proof.
  unfold visit_sequence, visit_iterable.
  rewrite tuple_of_visit_all by lia. reflexivity.
Qed.

(** X16. Visiting a collection made of two parts is visiting the first
    part and then, with the visitor as the first part left it, the second,
    and putting the two results together. *)
Theorem visit_sequence_app {V : Type}
    (visit : CSTNode -> V -> visit_result * V)
    (fieldname : pystr) (l1 l2 : list CSTNode) (v : V) :
  visit_sequence visit fieldname (l1 ++ l2) v =
    match visit_sequence visit fieldname l1 v with
    | (Ok r1, v1) =>
        match visit_sequence visit fieldname l2 v1 with
        | (Ok r2, v2) => (Ok (r1 ++ r2), v2)
        | (Raise e, v2) => (Raise e, v2)
        end
    | (Raise e, v1) => (Raise e, v1)
    end.
Proof.
  rewrite (visit_sequence_eq visit fieldname (l1 ++ l2)),
    (visit_sequence_eq visit fieldname l1).
  cbv iota beta. rewrite visit_sequence_eq. cbv iota beta.
  rewrite visit_all_app. simpl. rewrite kept_app. reflexivity.
Qed.

Lemma kept_length (rs : list visit_result) :
  (length (kept rs) <= length rs)%nat.
Proof.
  induction rs as [|[n|] rs IH]; simpl; lia.
Qed.

Lemma visit_all_unchanged {V} (visit : CSTNode -> V -> visit_result * V)
    (children : list CSTNode) :
  (forall n u, fst (visit n u) = Node n) ->
  forall v, kept (fst (visit_all visit children v)) = children.
Proof.
  intros Hid. induction children as [|child rest IH]; intros v; simpl;
    [reflexivity|].
  pose proof (Hid child v) as Hc.
  destruct (visit child v) as [r v']. simpl in Hc. subst r.
  specialize (IH v'). destruct (visit_all visit rest v') as [rs v''].
  simpl in *. rewrite IH. reflexivity.
Qed.

(** X17. [visit_sequence] never returns more nodes than it was given, and
    with a visitor that hands every node back as it is, it returns the
    children as they were. *)
Theorem visit_sequence_unchanged {V : Type}
    (visit : CSTNode -> V -> visit_result * V)
    (fieldname : pystr) (children : list CSTNode) (v : V) :
  (exists r, fst (visit_sequence visit fieldname children v) = Ok r /\
             (length r <= length children)%nat) /\
  ((forall n u, fst (visit n u) = Node n) ->
   fst (visit_sequence visit fieldname children v) = Ok children).
Proof.
  rewrite visit_sequence_eq. simpl. split.
  - eexists. split; [reflexivity|].
    rewrite <- (visit_all_length visit children v). apply kept_length.
  - intros Hid. rewrite (visit_all_unchanged visit children Hid). reflexivity.
Qed.

Lemma visit_sequence_unchanged_witness :
  let a := mkCSTNode 1 (lit "Name") in
  let b := mkCSTNode 2 (lit "Pass") in
  fst (visit_sequence (fun n (u : nat) => (Node n, S u)) (lit "body") [a; b] O)
    = Ok [a; b].
Proof.
  cbv zeta.
  apply (proj2 (visit_sequence_unchanged
                  (fun n (u : nat) => (Node n, S u)) (lit "body")
                  [mkCSTNode 1 (lit "Name"); mkCSTNode 2 (lit "Pass")] O)).
  intros n u. reflexivity.
Defined.

(** X18. Resuming the [visit_iterable] generator visits the children it has
    not reached, in order, up to and including the first one the visitor
    keeps, and no further: the ones before it were all removed, and the
    rest wait for the next resumption.  It finishes only after every
    remaining child was visited and removed.  It never raises. *)
Theorem visit_iterable_next_lazy {V : Type}
    (visit : CSTNode -> V -> visit_result * V)
    (gen : list CSTNode) (v : V) :
  match visit_iterable_next visit gen v with
  | (Ok (Some (n, rest)), v') =>
      exists skipped child,
        gen = skipped ++ child :: rest /\
        visit_all visit (skipped ++ [child]) v =
          (map (fun _ => REMOVE) skipped ++ [Node n], v')
  | (Ok None, v') =>
      visit_all visit gen v = (map (fun _ => REMOVE) gen, v')
  | (Raise _, _) => False
  end.
Proof.
  revert v. induction gen as [|child rest IH]; intros v; simpl; [reflexivity|].
  destruct (visit child v) as [[n|] v'] eqn:Hv.
  - exists [], child. simpl. rewrite Hv. auto.
  - specialize (IH v').
    destruct (visit_iterable_next visit rest v') as [[[[n rest']|]|e] v''].
    + destruct IH as (skipped & child' & Hgen & Hall).
      exists (child :: skipped), child'. split; [simpl; congruence|].
      simpl. rewrite Hv, Hall. reflexivity.
    + rewrite IH. reflexivity.
    + exact IH.
Qed.

(** X19. On one node the four helpers make the same single visit and
    differ only in what they make of a removal: where [visit_required]
    returns the node, [visit_optional], [visit_sentinel] and
    [visit_sequence] return it too; where it raises, they return [None],
    the placeholder and the empty collection.  [visit_optional] on [None]
    returns [None] and leaves the visitor as it was. *)
Theorem visit_helpers_agree {V : Type}
    (visit : CSTNode -> V -> visit_result * V)
    (fieldname : pystr) (node : CSTNode) (v : V) :
  let required := visit_required visit fieldname node v in
  visit_optional visit fieldname (Some node) v =
    (match fst required with
     | Ok n => Ok (Some n)
     | Raise _ => Ok None
     end, snd required) /\
  visit_sentinel visit fieldname (Real node) v =
    (match fst required with
     | Ok n => Ok (Real n)
     | Raise _ => Ok (Sentinel DEFAULT)
     end, snd required) /\
  visit_sequence visit fieldname [node] v =
    (match fst required with
     | Ok n => Ok [n]
     | Raise _ => Ok []
     end, snd required) /\
  snd required = snd (visit node v) /\
  visit_optional visit fieldname None v = (Ok None, v).
Proof.
  cbv zeta. rewrite visit_sequence_eq.
  unfold visit_required, visit_optional, visit_sentinel. simpl.
  destruct (visit node v) as [[n|] v']; simpl; auto.
Qed.
